(** * go-ast-parser: a shallow embedding of the chunk extraction pipeline

    The development follows the package layout of the repository:

    - [GoStrings]   the few functions of Go's [strings], [strconv] and [fmt]
                    that the code calls, on byte strings;
    - [Ast]         the fragment of [go/ast], [go/token] and [go/types] the
                    code inspects;
    - [analyzer]    [GetTypeString], [GetSignature], [ExtractAccessedSymbols];
    - [transform]   [ApplyQualifierReplacements];
    - [parser]      [ParsePackages] and the [process...] functions, in a state
                    monad over the heap of metadata maps, the log and the
                    trace of file reads;
    - [loader]      [LoadGoProject].

    Definitions come first, the theorems about them after. *)

From Stdlib Require Import ZArith Lia List Ascii String.
From Stdlib Require Import DecimalString DecimalPos DecimalZ.
From stdpp Require Import base option list gmap strings sorting.

Set Warnings "-register-all".

Open Scope string_scope.
Open Scope list_scope.
Open Scope Z_scope.

(* ===================================================================== *)
(** ** Go's string library, on byte strings *)
(* ===================================================================== *)

Module GoStrings.

(** [len(s)], a Go [int]. *)
Definition len (s : string) : Z := Z.of_nat (String.length s).

(** [strings.HasPrefix(s, prefix)]. *)
Definition HasPrefix (s prefix : string) : bool := String.prefix prefix s.

(** The scanning loop of [strings.ReplaceAll] for a non-empty [old]:
    matches are found leftmost first and do not overlap.  [skip] counts the
    bytes of a match that are still to be dropped. *)
Fixpoint replaceFrom (old new : string) (skip : nat) (s : string) : string :=
  match s with
  | EmptyString => EmptyString
  | String c s' =>
      match skip with
      | S k => replaceFrom old new k s'
      | O =>
          if String.prefix old s
          then new +:+ replaceFrom old new (String.length old - 1) s'
          else String c (replaceFrom old new 0 s')
      end
  end.

(** For an empty [old], Go inserts [new] before every character and at the
    end; on bytes this is exact for ASCII text. *)
Fixpoint insertBetween (new : string) (s : string) : string :=
  match s with
  | EmptyString => new
  | String c s' => new +:+ String c (insertBetween new s')
  end.

(** [strings.ReplaceAll(s, old, new)]. *)
Definition ReplaceAll (s old new : string) : string :=
  match old with
  | EmptyString => insertBetween new s
  | String _ _ => replaceFrom old new 0 s
  end.

(** [strings.Join(elems, sep)]. *)
Fixpoint Join (elems : list string) (sep : string) : string :=
  match elems with
  | [] => EmptyString
  | [e] => e
  | e :: rest => e +:+ sep +:+ Join rest sep
  end.

(** [strconv.Itoa] and the [%d] verb of [fmt].  Line numbers and placeholder
    counters are far from the bounds of a 64-bit [int], so no wrap-around
    is involved. *)
Definition Itoa (n : Z) : string := NilZero.string_of_int (Z.to_int n).

(** The slice expression [s[lo:hi]]: Go panics unless
    [0 <= lo <= hi <= len(s)]; [None] is the panic. *)
Definition slice (s : string) (lo hi : Z) : option string :=
  if decide (0 <= lo ∧ lo <= hi ∧ hi <= len s)
  then Some (substring (Z.to_nat lo) (Z.to_nat (hi - lo)) s)
  else None.

(** The order of [sort.Strings]: byte-wise lexical [<=]. *)
Definition str_le (s1 s2 : string) : Prop := String.leb s1 s2 = true.

#[global] Instance str_le_dec : RelDecision str_le.
Proof. intros s1 s2. unfold str_le. apply _. Defined.

(** [sort.Strings].  The order is total and antisymmetric, so the sorted
    arrangement of a list is unique and any sorting algorithm computes it. *)
Definition sort_Strings (l : list string) : list string := merge_sort str_le l.

(** What [sort.Slice(a, less)] promises about its result [r]: a
    rearrangement of [a] in which no later element is [less] than an earlier
    one.  The sort is not stable, so elements that [less] does not
    separate may come out in any order. *)
Definition sort_Slice_result {A} (less : A → A → Prop) (a r : list A) : Prop :=
  r ≡ₚ a ∧
  ∀ (i j : nat) x y, (i < j)%nat → r !! i = Some x → r !! j = Some y → ¬ less y x.

End GoStrings.

(* ===================================================================== *)
(** ** Syntax trees, positions and type information *)
(* ===================================================================== *)

Module Ast.

(** [token.Pos] *)
Abbreviation Pos := Z (only parsing).

(** [ast.Ident].  [go/types] keys its tables by node identity; the position
    of an identifier tells two identifiers of the same name apart. *)
Record Ident := mkIdent { NamePos : Pos; Name : string }.

#[global] Instance Ident_eq_dec : EqDecision Ident.
Proof. solve_decision. Defined.

(** [ast.ChanDir]: [SEND], [RECV], or both ([SEND | RECV]). *)
Inductive ChanDir := SEND | RECV | SEND_RECV.

(** [ast.Expr], with a constructor for each node kind that
    [GetTypeString] tells apart.  A field of a field list is the pair of
    its names and its type.  [OtherNode] stands for every other kind of
    node (calls, literals, statements, blocks, ...): the code never looks
    into one, and [ast.Inspect] only descends to its children. *)
Inductive Expr :=
| EIdent (id : Ident)
| StarExpr (X : Expr)
| ArrayType (Len : option Expr) (Elt : Expr)
| MapType (Key Value : Expr)
| SelectorExpr (X : Expr) (Sel : Ident)
| InterfaceType (Methods : list (list Ident * Expr))
| ChanType (Dir : ChanDir) (Value : Expr)
| Ellipsis (Elt : Expr)
| FuncType (Params Results : option (list (list Ident * Expr)))
| StructType (Fields : list (list Ident * Expr))
| OtherNode (children : list Expr).

Abbreviation Field := (list Ident * Expr)%type (only parsing).
Abbreviation FieldList := (list (list Ident * Expr)) (only parsing).

(** [token.Token], as far as [GenDecl.Tok] goes. *)
Inductive Token := IMPORT | CONST | TYPE | VAR.

(** [ast.Spec].  Every node carries its [Pos()] and [End()]. *)
Inductive Spec :=
| TypeSpec (pos end_ : Pos) (name : Ident) (type : Expr)
| ValueSpec (pos end_ : Pos) (names : list Ident) (type : option Expr)
            (values : list Expr)
| ImportSpec (pos end_ : Pos) (name : option Ident) (path : string).

(** [ast.FuncDecl] *)
Record FuncDecl := mkFuncDecl {
  fd_Pos : Pos;
  fd_End : Pos;
  fd_Recv : option FieldList;
  fd_Name : Ident;
  fd_Type : Expr;
  fd_Body : option Expr
}.

(** [ast.Decl] *)
Inductive Decl :=
| DFunc (d : FuncDecl)
| DGen (pos end_ : Pos) (Tok : Token) (Specs : list Spec)
| DBad (pos end_ : Pos).

Definition Decl_Pos (d : Decl) : Pos :=
  match d with DFunc f => fd_Pos f | DGen p _ _ _ => p | DBad p _ => p end.
Definition Decl_End (d : Decl) : Pos :=
  match d with DFunc f => fd_End f | DGen _ e _ _ => e | DBad _ e => e end.
Definition Spec_Pos (s : Spec) : Pos :=
  match s with
  | TypeSpec p _ _ _ => p | ValueSpec p _ _ _ _ => p | ImportSpec p _ _ _ => p
  end.
Definition Spec_End (s : Spec) : Pos :=
  match s with
  | TypeSpec _ e _ _ => e | ValueSpec _ e _ _ _ => e | ImportSpec _ e _ _ => e
  end.

(** [ast.File] *)
Record File := mkFile { file_Pos : Pos; Decls : list Decl }.

(** The [ast.Node]s the code hands to [ast.Inspect]. *)
Inductive Node :=
| NDecl (d : Decl)
| NSpec (s : Spec)
| NExpr (e : Expr).

(** *** [ast.Inspect]

    Every callback in the repository returns [true], so [ast.Inspect]
    visits the whole subtree, depth first, a node before its children and
    the children in the order of [ast.Walk].  The callbacks react to
    expression nodes only; the traversal is the list of expression nodes
    in visiting order. *)
Fixpoint Inspect_expr (e : Expr) : list Expr :=
  let fields (fl : FieldList) : list Expr :=
    flat_map (λ f, match f with
                   | (names, ty) => map EIdent names ++ Inspect_expr ty
                   end) fl in
  let opt_fields (o : option FieldList) : list Expr :=
    match o with Some fl => fields fl | None => [] end in
  e ::
  match e with
  | EIdent _ => []
  | StarExpr x => Inspect_expr x
  | ArrayType l elt =>
      match l with Some l' => Inspect_expr l' | None => [] end
      ++ Inspect_expr elt
  | MapType k v => Inspect_expr k ++ Inspect_expr v
  | SelectorExpr x sel => Inspect_expr x ++ [EIdent sel]
  | InterfaceType ms => fields ms
  | ChanType _ v => Inspect_expr v
  | Ellipsis elt => Inspect_expr elt
  | FuncType ps rs => opt_fields ps ++ opt_fields rs
  | StructType fs => fields fs
  | OtherNode cs => flat_map Inspect_expr cs
  end.

Definition Inspect_fields (fl : FieldList) : list Expr :=
  flat_map (λ f, map EIdent f.1 ++ Inspect_expr f.2) fl.

Definition Inspect_opt (o : option Expr) : list Expr :=
  match o with Some e => Inspect_expr e | None => [] end.

Definition Inspect_spec (s : Spec) : list Expr :=
  match s with
  | TypeSpec _ _ name type => EIdent name :: Inspect_expr type
  | ValueSpec _ _ names type values =>
      map EIdent names ++ Inspect_opt type ++ flat_map Inspect_expr values
  | ImportSpec _ _ name _ =>
      match name with Some n => [EIdent n] | None => [] end
  end.

Definition Inspect_decl (d : Decl) : list Expr :=
  match d with
  | DFunc f =>
      match fd_Recv f with Some fl => Inspect_fields fl | None => [] end
      ++ EIdent (fd_Name f) :: Inspect_expr (fd_Type f)
      ++ Inspect_opt (fd_Body f)
  | DGen _ _ _ specs => flat_map Inspect_spec specs
  | DBad _ _ => []
  end.

Definition Inspect (n : Node) : list Expr :=
  match n with
  | NDecl d => Inspect_decl d
  | NSpec s => Inspect_spec s
  | NExpr e => Inspect_expr e
  end.

(** *** [go/types]

    [types.Object], told apart the way the code does: an imported package
    name (with the path of the imported package) or anything else. *)
Inductive Object :=
| PkgName (importedPath : string)
| OtherObject.

(** [types.Info]: [TypeOf] answers with the printed form ([String()]) of
    the type recorded for an expression, if any; [Uses] is the table from
    identifiers to the objects they denote. *)
Record Info := mkInfo {
  TypeOf : Expr → option string;
  Uses : Ident → option Object
}.

(** [token.Position] and [token.FileSet] *)
Record Position := mkPosition { Offset : Z; Line : Z }.

(** [Fset.File(pos)] is nil when no file of the set contains [pos], as
    for [token.NoPos]; [FileName] is then [None], and otherwise the
    [Name()] of the file. *)
Record FileSet := mkFileSet {
  FileName : Pos → option string;  (* [Fset.File(pos)], then [.Name()] *)
  PositionOf : Pos → Position      (* [Fset.Position(pos)] *)
}.

(** [packages.Package] *)
Record Package := mkPackage {
  ID : string;
  PkgNameOf : string;                   (* [pkg.Name] *)
  GoFiles : list string;
  TypesInfo : option Info;
  Syntax : option (list File);
  Fset : option FileSet
}.

End Ast.

(* ===================================================================== *)
(** ** pkg/analyzer *)
(* ===================================================================== *)

Module analyzer.
Import GoStrings Ast.

Section Resolver.

(** [go/printer]'s [Fprint] into a buffer ([None] when it reports an
    error) and the [%T] verb of [fmt]: library code, taken as given. *)
Variable Fprint : Expr → option string.
Variable TypeVerb : Expr → string.

Variable info : Info.

(** The parameter or result list of [GetSignature]: one entry for an
    unnamed field, one entry per name otherwise.  [typeString] is the
    recursive call to [GetTypeString]. *)
Definition signatureEntries (typeString : Expr → string)
    (fl : option FieldList) : list string :=
  match fl with
  | None => []
  | Some l =>
      flat_map (λ field,
        match field with
        | (names, ty) =>
            let typeStr := typeString ty in
            match names with
            | [] => [typeStr]
            | _ => map (λ name, Name name +:+ " " +:+ typeStr) names
            end
        end) l
  end.

(** [ft.Results.List[0].Names == nil] *)
Definition firstNamesNil (Results : option FieldList) : bool :=
  match Results with
  | Some (([], _) :: _) => true
  | _ => false
  end.

(** The body of [GetSignature], over the recursive call. *)
Definition signatureOf (typeString : Expr → string)
    (Params Results : option FieldList) : string :=
  let params := signatureEntries typeString Params in
  let paramStr := "(" +:+ Join params ", " +:+ ")" in
  let results := signatureEntries typeString Results in
  let resultStr :=
    match results with
    | [] => ""
    | [r] =>
        if firstNamesNil Results
        then " " +:+ r
        else " (" +:+ Join results ", " +:+ ")"
    | _ => " (" +:+ Join results ", " +:+ ")"
    end in
  paramStr +:+ resultStr.

(** [GetTypeString]: the recorded type when the table has one, a
    reconstruction from the shape of the expression otherwise. *)
Fixpoint GetTypeString (expr : Expr) : string :=
  match TypeOf info expr with
  | Some tv => tv
  | None =>
      match expr with
      | EIdent t => Name t
      | StarExpr X => "*" +:+ GetTypeString X
      | ArrayType _ Elt => "[]" +:+ GetTypeString Elt
      | MapType Key Value =>
          "map[" +:+ GetTypeString Key +:+ "]" +:+ GetTypeString Value
      | SelectorExpr X Sel =>
          match X with
          | EIdent ident =>
              match Uses info ident with
              | Some (PkgName path) => path +:+ "." +:+ Name Sel
              | _ => GetTypeString X +:+ "." +:+ Name Sel
              end
          | _ => GetTypeString X +:+ "." +:+ Name Sel
          end
      | InterfaceType _ => "interface{}"
      | ChanType Dir Value =>
          let dir :=
            match Dir with
            | SEND => "chan<- "
            | RECV => "<-chan "
            | SEND_RECV => "chan "
            end in
          dir +:+ GetTypeString Value
      | Ellipsis Elt => "..." +:+ GetTypeString Elt
      | FuncType Params Results =>
          "func" +:+ signatureOf GetTypeString Params Results
      | _ =>
          match Fprint expr with
          | Some printed => printed
          | None => TypeVerb expr
          end
      end
  end.

(** [GetSignature] *)
Definition GetSignature (Params Results : option FieldList) : string :=
  signatureOf GetTypeString Params Results.

End Resolver.

(** The callback of [ExtractAccessedSymbols] at one visited node: a
    selector whose base is an identifier that [Uses] binds to an imported
    package adds [<import path>.<member>] to the set. *)
Definition accessedAt (info : Info) (accessed : gset string) (innerNode : Expr)
    : gset string :=
  match innerNode with
  | SelectorExpr (EIdent ident) Sel =>
      match Uses info ident with
      | Some (PkgName fullImportPath) =>
          {[ fullImportPath +:+ "." +:+ Name Sel ]} ∪ accessed
      | _ => accessed
      end
  | _ => accessed
  end.

(** The set [accessed] after the traversal. *)
Definition accessedSet (node : Node) (info : Info) : gset string :=
  foldl (accessedAt info) ∅ (Inspect node).

(** [ExtractAccessedSymbols], with the order [keys] in which the [range]
    over the map [accessed] hands out its keys; Go leaves that order
    open.  A nil slice and an empty slice are both the empty list. *)
Definition ExtractAccessedSymbols_in (keys : gset string → list string)
    (node : option Node) (info : option Info) : list string :=
  match node, info with
  | Some node, Some info =>
      let accessed := accessedSet node info in
      let result := keys accessed in
      sort_Strings result
  | _, _ => []
  end.

(** The keys in some fixed order; [sort.Strings] makes the result the same
    for every order (shown below). *)
Definition ExtractAccessedSymbols (node : option Node) (info : option Info)
    : list string :=
  ExtractAccessedSymbols_in elements node info.

End analyzer.

(* ===================================================================== *)
(** ** pkg/transform *)
(* ===================================================================== *)

Module transform.
Import GoStrings Ast.

(** The callback of [ApplyQualifierReplacements] at one visited node: a
    selector whose base identifier is bound to an imported package records
    [alias -> full import path], unless the alias is the path already. *)
Definition replacementAt (info : Info) (replacements : gmap string string)
    (innerNode : Expr) : gmap string string :=
  match innerNode with
  | SelectorExpr (EIdent ident) _ =>
      match Uses info ident with
      | Some (PkgName fullImportPath) =>
          if decide (Name ident ≠ fullImportPath)
          then <[Name ident := fullImportPath]> replacements
          else replacements
      | _ => replacements
      end
  | _ => replacements
  end.

(** The map [replacements] after the traversal. *)
Definition discoverReplacements (node : Node) (info : Info)
    : gmap string string :=
  foldl (replacementAt info) ∅ (Inspect node).

Definition placeholderPrefix : string := "__GO_QUALIFIER_TEMP_".

Definition placeholderOf (i : Z) : string :=
  placeholderPrefix +:+ Itoa i +:+ "__".

(** The loop that numbers the aliases: [entries] are the pairs of
    [replacements] in the order the [range] statement yields them. *)
Fixpoint assignPlaceholders (entries : list (string * string)) (i : Z)
    (tempMap finalMap : gmap string string)
    : gmap string string * gmap string string :=
  match entries with
  | [] => (tempMap, finalMap)
  | (oldQualifier, fullPath) :: rest =>
      let placeholder := placeholderOf i in
      assignPlaceholders rest (i + 1)
        (<[oldQualifier := placeholder]> tempMap)
        (<[placeholder := fullPath]> finalMap)
  end.

(** Go fixes neither the order of a [range] over a map nor the order
    [sort.Slice] gives to elements of equal length.  A [MapOrder] resolves
    these choices for one call. *)
Record MapOrder := mkMapOrder {
  rangeReplacements : list (string * string);
  sortedOldQualifiers : list string;
  sortedPlaceholders : list string
}.

(** The comparison handed to both [sort.Slice] calls. *)
Definition longerFirst (x y : string) : Prop :=
  (String.length x > String.length y)%nat.

(** Reading a key from a Go map: the zero value when absent. *)
Definition mapGet (m : gmap string string) (k : string) : string :=
  default "" (m !! k).

(** Phase 1: aliases to placeholders. *)
Definition toPlaceholders (tempMap : gmap string string)
    (qualifiers : list string) (chunkCode : string) : string :=
  foldl (λ chunkCode oldQualifier,
           let placeholder := mapGet tempMap oldQualifier in
           ReplaceAll chunkCode (oldQualifier +:+ ".") (placeholder +:+ "."))
        chunkCode qualifiers.

(** Phase 2: placeholders to import paths. *)
Definition toFullPaths (finalMap : gmap string string)
    (placeholders : list string) (chunkCode : string) : string :=
  foldl (λ chunkCode placeholder,
           let fullPath := mapGet finalMap placeholder in
           ReplaceAll chunkCode (placeholder +:+ ".") (fullPath +:+ "."))
        chunkCode placeholders.

(** The part of [ApplyQualifierReplacements] after the traversal. *)
Definition substitute (o : MapOrder) (replacements : gmap string string)
    (chunkCode : string) : string :=
  if decide (size replacements = 0%nat) then chunkCode
  else
    let '(tempMap, finalMap) :=
      assignPlaceholders (rangeReplacements o) 0 ∅ ∅ in
    let chunkCode := toPlaceholders tempMap (sortedOldQualifiers o) chunkCode in
    toFullPaths finalMap (sortedPlaceholders o) chunkCode.

(** The orders a run of the Go code can take for the map [replacements]. *)
Definition admissible (replacements : gmap string string) (o : MapOrder)
    : Prop :=
  rangeReplacements o ≡ₚ map_to_list replacements ∧
  let '(tempMap, finalMap) :=
    assignPlaceholders (rangeReplacements o) 0 ∅ ∅ in
  sort_Slice_result longerFirst (map_to_list tempMap).*1
                    (sortedOldQualifiers o) ∧
  sort_Slice_result longerFirst (map_to_list finalMap).*1
                    (sortedPlaceholders o).

(** [ApplyQualifierReplacements]; [order] resolves the choices Go leaves
    open, for the map discovered. *)
Definition ApplyQualifierReplacements (order : gmap string string → MapOrder)
    (chunkCode : string) (node : option Node) (info : option Info) : string :=
  match node, info with
  | Some node, Some info =>
      let replacements := discoverReplacements node info in
      substitute (order replacements) replacements chunkCode
  | _, _ => chunkCode
  end.

End transform.

(* ===================================================================== *)
(** ** pkg/types and the run-time state *)
(* ===================================================================== *)

Module runtime.
Import GoStrings Ast.

(** The values the code stores under a metadata key ([interface{}]). *)
Inductive Value :=
| VString (s : string)
| VBool (b : bool)
| VStrings (l : list string).

(** A Go map is a reference: [map[string]interface{}] is the address of a
    table in the heap, and two variables may hold the same address. *)
Abbreviation MapRef := nat (only parsing).

(** [types.ChromaDocument] *)
Record ChromaDocument := mkChromaDocument {
  ChunkID : string;
  Document : string;
  Metadata : MapRef
}.

(** What [log.Printf] is called with. *)
Inductive LogEvent :=
| LogSkipPackage (id : string)
| LogErrorProcessingPackage (id : string)
| LogErrorReadingFile (filePath : string)
| LogInvalidDeclOffsets (filePath : string) (line startOffset endOffset fileLen : Z)
| LogInvalidSpecOffsets (filePath : string) (line startOffset endOffset fileLen : Z)
| LogVendorMissing (vendorDirPath : string)
| LogVendorStatError (vendorDirPath : string)
| LogVendorExists (vendorDirPath : string)
| LogLoading (dir : string)
| LogLoadWarning (dir : string) (err : string)
| LogLoaded (dir : string) (n : nat)
| LogTotalUnique (n : nat)
| LogListingHeader
| LogPackageID (id : string)
| LogFile (path : string)
| LogMoreFiles (n : nat)
| LogNoGoFiles
| LogListingFooter.

(** The state a run threads through: the heap of metadata maps, the log,
    and the paths handed to [ioutil.ReadFile], in order. *)
Record World := mkWorld {
  heap : gmap nat (gmap string Value);
  logged : list LogEvent;
  reads : list string
}.

Definition emptyWorld : World := mkWorld ∅ [] [].

(** A computation either panics ([None]) or returns a value and the next
    state. *)
Definition M (A : Type) : Type := World → option (A * World).

#[global] Instance M_ret : MRet M := λ A a w, Some (a, w).
#[global] Instance M_bind : MBind M := λ A B f m w,
  match m w with
  | Some (a, w') => f a w'
  | None => None
  end.

Definition panic {A} : M A := λ _, None.

(** Dereferencing a pointer that may be nil. *)
Definition deref {A} (p : option A) : M A :=
  match p with Some a => mret a | None => panic end.

Definition logPrintf (e : LogEvent) : M unit := λ w,
  Some (tt, mkWorld (heap w) (logged w ++ [e]) (reads w)).

(** A map literal or [make(map[string]interface{})]: a fresh table. *)
Definition newMap (init : gmap string Value) : M MapRef := λ w,
  let r := fresh (dom (heap w)) in
  Some (r, mkWorld (<[r := init]> (heap w)) (logged w) (reads w)).

(** [m[k] = v] *)
Definition mapStore (m : MapRef) (k : string) (v : Value) : M unit := λ w,
  match heap w !! m with
  | Some table =>
      Some (tt, mkWorld (<[m := <[k := v]> table]> (heap w)) (logged w) (reads w))
  | None => None
  end.

(** The entries of a map, as a [range] statement sees them. *)
Definition mapEntries (m : MapRef) : M (list (string * Value)) := λ w,
  match heap w !! m with
  | Some table => Some (map_to_list table, w)
  | None => Some ([], w)
  end.

(** A [for ... range] loop over a list that carries an accumulator. *)
Fixpoint forRange {A S} (l : list A) (body : S → A → M S) (s : S) : M S :=
  match l with
  | [] => mret s
  | a :: rest => s' ← body s a; forRange rest body s'
  end.

End runtime.

(* ===================================================================== *)
(** ** pkg/parser *)
(* ===================================================================== *)

Module parser.
Import GoStrings Ast runtime.

Section Extractor.

(** The operating system and the libraries outside the repository:
    - [ReadFile n path]: what [ioutil.ReadFile(path)] returns when [n]
      reads came before it in the run ([None]: an error);
    - [Abs], [Join], [Separator]: [path/filepath];
    - [Fprint], [TypeVerb]: [go/printer] and [fmt]'s [%T];
    - [order]: the map and sort orders of [ApplyQualifierReplacements]. *)
Variable ReadFile : nat → string → option string.
Variable Abs : string → option string.
Variable Join : string → string → string.
Variable Separator : string.
Variable Fprint : Expr → option string.
Variable TypeVerb : Expr → string.
Variable order : gmap string string → transform.MapOrder.

Definition ioutil_ReadFile (path : string) : M (option string) := λ w,
  Some (ReadFile (List.length (reads w)) path,
        mkWorld (heap w) (logged w) (reads w ++ [path])).

(** [analyzer.GetTypeString(expr, pkg.TypesInfo)]: a nil [info] is
    dereferenced by [info.TypeOf]. *)
Definition GetTypeString (expr : Expr) (info : option Info) : M string :=
  i ← deref info; mret (analyzer.GetTypeString Fprint TypeVerb i expr).

(** [fmt.Sprintf("%s:%d-%d-%s", filePath, startLine, endLine, name)] *)
Definition Sprintf_ID (filePath : string) (startLine endLine : Z)
    (name : string) : string :=
  filePath +:+ ":" +:+ Itoa startLine +:+ "-" +:+ Itoa endLine +:+ "-" +:+ name.

(** The offsets test shared by declarations and specifications. *)
Definition invalidOffsets (startOffset endOffset : Z) (content : string) : Prop :=
  startOffset < 0 ∨ endOffset > len content ∨ startOffset > endOffset.

(** [s[lo:hi]], panicking out of range. *)
Definition sliceString (s : string) (lo hi : Z) : M string :=
  deref (slice s lo hi).

(** [processFunctionDeclaration] *)
Definition processFunctionDeclaration (funcDecl : FuncDecl) (pkg : Package)
    (declChunkCode : string) (metadata : MapRef) (filePath : string)
    (startPos endPos : Position) : M (option ChromaDocument) :=
  mapStore metadata "entity_type" (VString "function");;
  mapStore metadata "entity_name" (VString (Name (fd_Name funcDecl)));;
  match fd_Recv funcDecl with
  | Some (recv0 :: _) =>
      mapStore metadata "entity_type" (VString "method");;
      receiverType ← GetTypeString recv0.2 (TypesInfo pkg);
      mapStore metadata "receiver_type" (VString receiverType);;
      mapStore metadata "entity_name"
        (VString (receiverType +:+ "." +:+ Name (fd_Name funcDecl)))
  | _ => mret tt
  end;;
  let finalChunkCode :=
    transform.ApplyQualifierReplacements order declChunkCode
      (Some (NDecl (DFunc funcDecl))) (TypesInfo pkg) in
  mret (Some {|
    ChunkID := Sprintf_ID filePath (Line startPos) (Line endPos)
                 (Name (fd_Name funcDecl));
    Document := finalChunkCode;
    Metadata := metadata |}).

(** The tail shared by [processTypeSpecification] and
    [processValueSpecification]: read the file again, test the offsets,
    slice, rewrite, build the chunk. *)
Definition specChunk (spec : Spec) (pkg : Package) (specMetadata : MapRef)
    (filePath : string) (specStartPos specEndPos : Position)
    (entityName : string) : M (option ChromaDocument) :=
  r ← ioutil_ReadFile filePath;
  match r with
  | None => logPrintf (LogErrorReadingFile filePath);; mret None
  | Some originalFileContentString =>
      let specStartOffset := Offset specStartPos in
      let specEndOffset := Offset specEndPos in
      if decide (invalidOffsets specStartOffset specEndOffset
                   originalFileContentString)
      then
        logPrintf (LogInvalidSpecOffsets filePath (Line specStartPos)
                     specStartOffset specEndOffset
                     (len originalFileContentString));;
        mret None
      else
        specChunkCode ←
          sliceString originalFileContentString specStartOffset specEndOffset;
        let finalChunkCode :=
          transform.ApplyQualifierReplacements order specChunkCode
            (Some (NSpec spec)) (TypesInfo pkg) in
        mret (Some {|
          ChunkID := Sprintf_ID filePath (Line specStartPos)
                       (Line specEndPos) entityName;
          Document := finalChunkCode;
          Metadata := specMetadata |})
  end.

(** [processTypeSpecification] *)
Definition processTypeSpecification (typeSpec : Spec) (name : Ident)
    (type : Expr) (pkg : Package) (specMetadata : MapRef) (filePath : string)
    (specStartPos specEndPos : Position) : M (option ChromaDocument) :=
  let entityName := Name name in
  mapStore specMetadata "entity_name" (VString entityName);;
  mapStore specMetadata "type_category"
    (VString match type with
             | StructType _ => "struct"
             | InterfaceType _ => "interface"
             | _ => "alias_or_basic"
             end);;
  specChunk typeSpec pkg specMetadata filePath specStartPos specEndPos
    entityName.

(** [processValueSpecification] *)
Definition processValueSpecification (valueSpec : Spec) (names : list Ident)
    (type : option Expr) (values : list Expr) (pkg : Package)
    (specMetadata : MapRef) (filePath : string)
    (specStartPos specEndPos : Position) : M (option ChromaDocument) :=
  let entityName := GoStrings.Join (map Name names) ", " in
  mapStore specMetadata "entity_name" (VString entityName);;
  match type, values with
  | Some ty, _ =>
      t ← GetTypeString ty (TypesInfo pkg);
      mapStore specMetadata "type" (VString t)
  | None, v0 :: _ =>
      info ← deref (TypesInfo pkg);
      match TypeOf info v0 with
      | Some tv => mapStore specMetadata "type" (VString tv)
      | None => mret tt
      end
  | None, [] => mret tt
  end;;
  specChunk valueSpec pkg specMetadata filePath specStartPos specEndPos
    entityName.

(** [processSpecification]: the base metadata is copied, entry by entry,
    into a map of the specification's own. *)
Definition processSpecification (spec : Spec) (pkg : Package)
    (baseMetadata : MapRef) (filePath : string)
    (specStartPos specEndPos : Position) : M (option ChromaDocument) :=
  specMetadata ← newMap ∅;
  entries ← mapEntries baseMetadata;
  forRange entries (λ _ kv, mapStore specMetadata kv.1 kv.2) tt;;
  match spec with
  | TypeSpec _ _ name type =>
      processTypeSpecification spec name type pkg specMetadata filePath
        specStartPos specEndPos
  | ValueSpec _ _ names type values =>
      processValueSpecification spec names type values pkg specMetadata
        filePath specStartPos specEndPos
  | ImportSpec _ _ _ _ => mret None
  end.

(** [processGeneralDeclaration] *)
Definition processGeneralDeclaration (Tok : Token) (Specs : list Spec)
    (pkg : Package) (metadata : MapRef) (filePath : string)
    : M (list ChromaDocument) :=
  match Tok with
  | IMPORT => mret []
  | _ =>
      forRange Specs (λ chunks spec,
        fset ← deref (Fset pkg);
        let specStartPos := PositionOf fset (Spec_Pos spec) in
        let specEndPos := PositionOf fset (Spec_End spec) in
        chunk ← processSpecification spec pkg metadata filePath
                  specStartPos specEndPos;
        match chunk with
        | Some c => mret (chunks ++ [c])
        | None => mret chunks
        end) []
  end.

(** [processDeclaration] *)
Definition processDeclaration (decl : Decl) (pkg : Package)
    (declChunkCode : string) (metadata : MapRef) (filePath : string)
    (startPos endPos : Position) : M (list ChromaDocument) :=
  match decl with
  | DFunc d =>
      chunk ← processFunctionDeclaration d pkg declChunkCode metadata
                filePath startPos endPos;
      match chunk with
      | Some c => mret [c]
      | None => mret []
      end
  | DGen _ _ Tok Specs =>
      processGeneralDeclaration Tok Specs pkg metadata filePath
  | DBad _ _ => mret []
  end.

(** The body of the loop of [processFileDeclarations]. *)
Definition processOneDeclaration (pkg : Package)
    (filePath packageName : string) (isVendored : bool)
    (originalFileContentString : string)
    (chunks : list ChromaDocument) (decl : Decl) : M (list ChromaDocument) :=
  metadata ← newMap (<["file_path" := VString filePath]>
                     (<["package_name" := VString packageName]>
                      (<["is_vendored" := VBool isVendored]> ∅)));
  fset ← deref (Fset pkg);
  let startPos := PositionOf fset (Decl_Pos decl) in
  let endPos := PositionOf fset (Decl_End decl) in
  let startOffset := Offset startPos in
  let endOffset := Offset endPos in
  if decide (invalidOffsets startOffset endOffset originalFileContentString)
  then
    logPrintf (LogInvalidDeclOffsets filePath (Line startPos) startOffset
                 endOffset (len originalFileContentString));;
    mret chunks
  else
    declChunkCode ← sliceString originalFileContentString startOffset endOffset;
    let accessedSymbols :=
      analyzer.ExtractAccessedSymbols (Some (NDecl decl)) (TypesInfo pkg) in
    mapStore metadata "accessed_symbols" (VStrings accessedSymbols);;
    declChunks ← processDeclaration decl pkg declChunkCode metadata filePath
                   startPos endPos;
    mret (chunks ++ declChunks).

(** [processFileDeclarations] *)
Definition processFileDeclarations (file : File) (pkg : Package)
    (filePath packageName : string) (isVendored : bool)
    (originalFileContentString : string) : M (list ChromaDocument) :=
  forRange (Decls file)
    (processOneDeclaration pkg filePath packageName isVendored
       originalFileContentString) [].

(** The body of the loop of [processPackage].  [Name()] dereferences the
    [*token.File] that [Fset.File] returns: a nil file is a panic. *)
Definition processOneFile (pkg : Package) (absVendorPath : string)
    (chunks : list ChromaDocument) (file : File) : M (list ChromaDocument) :=
  fset ← deref (Fset pkg);
  filePath ← deref (FileName fset (file_Pos file));
  r ← ioutil_ReadFile filePath;
  match r with
  | None => logPrintf (LogErrorReadingFile filePath);; mret chunks
  | Some originalFileContentString =>
      let packageName := PkgNameOf pkg in
      let isVendored := HasPrefix filePath (absVendorPath +:+ Separator) in
      fileChunks ← processFileDeclarations file pkg filePath packageName
                     isVendored originalFileContentString;
      mret (chunks ++ fileChunks)
  end.

(** [processPackage]; its [error] result is always nil. *)
Definition processPackage (pkg : Package) (absVendorPath : string)
    : M (list ChromaDocument * option string) :=
  chunks ← forRange (default [] (Syntax pkg)) (processOneFile pkg absVendorPath) [];
  mret (chunks, None).

(** The body of the loop of [ParsePackages]. *)
Definition parseOnePackage (absVendorPath : string)
    (allChunks : list ChromaDocument) (pkg : Package)
    : M (list ChromaDocument) :=
  match TypesInfo pkg, Syntax pkg, Fset pkg with
  | Some _, Some _, Some _ =>
      '(chunks, err) ← processPackage pkg absVendorPath;
      match err with
      | Some _ => logPrintf (LogErrorProcessingPackage (ID pkg));; mret allChunks
      | None => mret (allChunks ++ chunks)
      end
  | _, _, _ => logPrintf (LogSkipPackage (ID pkg));; mret allChunks
  end.

(** [ParsePackages]: the chunks and the [error]. *)
Definition ParsePackages (allPkgs : list Package) (projectPath : string)
    : M (list ChromaDocument * option string) :=
  let vendorDirPath := Join projectPath "vendor" in
  match Abs vendorDirPath with
  | None =>
      mret ([], Some "failed to resolve absolute path for vendor directory")
  | Some absVendorPath =>
      allChunks ← forRange allPkgs (parseOnePackage absVendorPath) [];
      mret (allChunks, None)
  end.

End Extractor.

End parser.

(* ===================================================================== *)
(** ** pkg/loader *)
(* ===================================================================== *)

Module loader.
Import GoStrings Ast runtime.

(** What the code tells apart in the result of [os.Stat]. *)
Inductive StatResult := StatNotExist | StatError | StatOk.

Section Loader.

(** [os.Stat], [filepath.Join] and [packages.Load(cfg, "./...")] for a
    configuration with directory [Dir]: the packages and the [error]. *)
Variable Stat : string → StatResult.
Variable Join : string → string → string.
Variable Load : string → list Package * option string.

(** The loop that appends the packages whose ID was not seen before. *)
Definition appendUnique (pkgs : list Package)
    (acc : list Package * gset string) : list Package * gset string :=
  foldl (λ '(allPkgs, loadedPkgIDs) pkg,
           if decide (ID pkg ∈ loadedPkgIDs)
           then (allPkgs, loadedPkgIDs)
           else (allPkgs ++ [pkg], {[ID pkg]} ∪ loadedPkgIDs))
        acc pkgs.

(** [logLoadedPackages] *)
Definition logLoadedPackages (allPkgs : list Package) : M unit :=
  logPrintf LogListingHeader;;
  forRange allPkgs (λ _ pkg,
    logPrintf (LogPackageID (ID pkg));;
    match GoFiles pkg with
    | [] => logPrintf LogNoGoFiles
    | files =>
        let numFilesToPrint := Nat.min 3 (List.length files) in
        forRange (take numFilesToPrint files)
          (λ _ f, logPrintf (LogFile f)) tt;;
        if decide (numFilesToPrint < List.length files)%nat
        then logPrintf (LogMoreFiles (List.length files - numFilesToPrint))
        else mret tt
    end) tt;;
  logPrintf LogListingFooter.

(** One loading pass, with its log lines. *)
Definition loadPass (dir : string) : M (list Package) :=
  logPrintf (LogLoading dir);;
  let '(pkgs, err) := Load dir in
  match err with
  | Some e => logPrintf (LogLoadWarning dir e)
  | None => mret tt
  end;;
  logPrintf (LogLoaded dir (List.length pkgs));;
  mret pkgs.

(** [LoadGoProject]: the packages and the [error]. *)
Definition LoadGoProject (projectPath : string)
    : M (list Package * option string) :=
  let vendorDirPath := Join projectPath "vendor" in
  match Stat vendorDirPath with
  | StatNotExist => logPrintf (LogVendorMissing vendorDirPath)
  | StatError => logPrintf (LogVendorStatError vendorDirPath)
  | StatOk => logPrintf (LogVendorExists vendorDirPath)
  end;;
  mainPkgs ← loadPass projectPath;
  let acc := appendUnique mainPkgs ([], ∅) in
  vendorPkgs ← loadPass vendorDirPath;
  let '(allPkgs, _) := appendUnique vendorPkgs acc in
  logPrintf (LogTotalUnique (List.length allPkgs));;
  logLoadedPackages allPkgs;;
  mret (allPkgs, None).

End Loader.

End loader.

(* ===================================================================== *)
(** ** cmd/go-ast-parser: steps 1 and 2 of [main] *)
(* ===================================================================== *)

Module pipeline.
Import GoStrings Ast runtime.

(** How the two steps end: with the chunks handed to the writer, or in
    [log.Fatalf]. *)
Inductive Outcome :=
| Chunks (chunks : list ChromaDocument)
| FatalLoading (err : string)
| FatalParsing (err : string).

Definition loadAndParse ReadFile Abs Join Separator Fprint TypeVerb order
    Stat Load (projectPath : string) : M Outcome :=
  '(allPkgs, err) ← loader.LoadGoProject Stat Join Load projectPath;
  match err with
  | Some e => mret (FatalLoading e)
  | None =>
      '(chunks, err) ← parser.ParsePackages ReadFile Abs Join Separator
                         Fprint TypeVerb order allPkgs projectPath;
      match err with
      | Some e => mret (FatalParsing e)
      | None => mret (Chunks chunks)
      end
  end.

End pipeline.

(* ===================================================================== *)
(** ** Sample inputs *)
(* ===================================================================== *)

Module examples.
Import GoStrings Ast runtime.

(** A small operating system: paths are joined with [/], every path is
    absolute already, nothing can be printed by [go/printer]. *)
Definition Join (a b : string) : string := a +:+ "/" +:+ b.
Definition Abs (p : string) : option string := Some p.
Definition Fprint (_ : Expr) : option string := None.
Definition TypeVerb (_ : Expr) : string := "*ast.BadExpr".

(** A type table with no recorded types, in which [fmt], [a] and [ab] are
    imported package names. *)
Definition info : Info :=
  mkInfo (λ _, None)
         (λ id, if decide (Name id = "fmt") then Some (PkgName "fmt")
                else if decide (Name id = "a") then Some (PkgName "pkg/a")
                else if decide (Name id = "ab") then Some (PkgName "pkg/ab")
                else None).

(** The file [/p/a.go] holds the method [func (f *Foo) Bar() {}] on its
    first line and the declaration [type T int] on its second.  Positions
    are offsets plus one; the first line ends at offset 22. *)
Definition a_go : string := "func (f *Foo) Bar() {}
type T int".

Definition fset : FileSet :=
  mkFileSet (λ p, if decide (1 <= p) then Some "/p/a.go" else None)
            (λ p, mkPosition (p - 1) (if decide (p <= 23) then 1 else 2)).

Definition recvFoo : Expr := StarExpr (EIdent (mkIdent 10 "Foo")).

Definition Bar : FuncDecl :=
  mkFuncDecl 1 23 (Some [([mkIdent 7 "f"], recvFoo)]) (mkIdent 15 "Bar")
             (FuncType (Some []) None) (Some (OtherNode [])).

Definition T_spec : Spec :=
  TypeSpec 29 34 (mkIdent 29 "T") (EIdent (mkIdent 31 "int")).

Definition a_file : File := mkFile 1 [DFunc Bar; DGen 24 34 TYPE [T_spec]].

Definition pkg : Package :=
  mkPackage "example.com/p" "p" ["/p/a.go"] (Some info) (Some [a_file])
            (Some fset).

(** The same package with the type declaration only. *)
Definition pkg_T : Package :=
  mkPackage "example.com/p" "p" ["/p/a.go"] (Some info)
            (Some [mkFile 1 [DGen 24 34 TYPE [T_spec]]]) (Some fset).

(** The file on disk changes between two reads. *)
Definition a_go_later : string := "func (f *Foo) Bar() {}
type U int".

Definition disk (n : nat) (_ : string) : option string :=
  match n with O => Some a_go | _ => Some a_go_later end.

(** A disk that never changes. *)
Definition still (content : string) (_ : nat) (_ : string) : option string :=
  Some content.

(** No alias is rewritten in these files; any order will do. *)
Definition noOrder (_ : gmap string string) : transform.MapOrder :=
  transform.mkMapOrder [] [] [].

(** The body of [func Hello() { fmt.Println(1) }]. *)
Definition hello_body : Node :=
  NExpr (OtherNode
    [SelectorExpr (EIdent (mkIdent 16 "fmt")) (mkIdent 20 "Println")]).

(** The call [ab.Foo(a.Bar)] and its replacement map. *)
Definition call : Node :=
  NExpr (OtherNode
    [SelectorExpr (EIdent (mkIdent 1 "ab")) (mkIdent 4 "Foo");
     SelectorExpr (EIdent (mkIdent 8 "a")) (mkIdent 10 "Bar")]).

Definition a_ab : gmap string string :=
  <["a" := "pkg/a"]> (<["ab" := "pkg/ab"]> ∅).

Definition order_a_ab : transform.MapOrder :=
  transform.mkMapOrder [("a", "pkg/a"); ("ab", "pkg/ab")] ["ab"; "a"]
    ["__GO_QUALIFIER_TEMP_0__"; "__GO_QUALIFIER_TEMP_1__"].

(** An interface literal with a method, [interface{ Read() }]. *)
Definition reader : Expr :=
  InterfaceType [([mkIdent 12 "Read"], FuncType (Some []) None)].

(** The file [/p/g.go] holds one declaration group with the bindings
    [A int] and [B int], each on a line of its own between [type (] and
    [)]. *)
Definition g_go : string := "type (
 A int
 B int
)".

Definition A_spec : Spec :=
  TypeSpec 9 14 (mkIdent 9 "A") (EIdent (mkIdent 11 "int")).
Definition B_spec : Spec :=
  TypeSpec 16 21 (mkIdent 16 "B") (EIdent (mkIdent 18 "int")).

Definition g_fset : FileSet :=
  mkFileSet (λ p, if decide (1 <= p) then Some "/p/g.go" else None)
            (λ p, mkPosition (p - 1)
                    (if decide (p <= 7) then 1 else if decide (p <= 14) then 2
                     else if decide (p <= 21) then 3 else 4)).

Definition g_decl : Decl := DGen 1 23 TYPE [A_spec; B_spec].

Definition g_pkg : Package :=
  mkPackage "example.com/g" "g" ["/p/g.go"] (Some info)
            (Some [mkFile 1 [g_decl]]) (Some g_fset).

(** A declaration whose span ends beyond the end of the file. *)
Definition beyond : Decl := DGen 24 99 TYPE [T_spec].

(** The stub that [go/parser] hands out for a file that is not Go source:
    no declarations, and [token.NoPos] as its position.  No file of a
    file set contains that position. *)
Definition stub_file : File := mkFile 0 [].

Definition stub_pkg : Package :=
  mkPackage "example.com/s" "s" ["/p/s.go"] (Some info) (Some [stub_file])
            (Some fset).

(** The call [__x.F(__.G)]: the names [__] and [__x] are imported
    packages, the shorter a prefix of the longer. *)
Definition under_info : Info :=
  mkInfo (λ _, None)
         (λ id, if decide (Name id = "__") then Some (PkgName "p/s")
                else if decide (Name id = "__x") then Some (PkgName "p/l")
                else None).

Definition under_call : Node :=
  NExpr (OtherNode
    [SelectorExpr (EIdent (mkIdent 1 "__x")) (mkIdent 5 "F");
     SelectorExpr (EIdent (mkIdent 7 "__")) (mkIdent 10 "G")]).

Definition under_map : gmap string string :=
  <["__" := "p/s"]> (<["__x" := "p/l"]> ∅).

Definition order_under : transform.MapOrder :=
  transform.mkMapOrder [("__x", "p/l"); ("__", "p/s")] ["__x"; "__"]
    ["__GO_QUALIFIER_TEMP_0__"; "__GO_QUALIFIER_TEMP_1__"].

End examples.

(* ===================================================================== *)
(** ** Vocabulary for the statements about runs *)
(* ===================================================================== *)

Module observe.
Import GoStrings Ast runtime.

(** [post m w Q]: started in [w], the computation [m] does not panic, and
    its result and final state satisfy [Q]. *)
Definition post {A} (m : M A) (w : World) (Q : A → World → Prop) : Prop :=
  ∃ a w', m w = Some (a, w') ∧ Q a w'.

(** Every map of [w] is still there in [w'], with the same entries. *)
Definition frame (w w' : World) : Prop :=
  ∀ r table, heap w !! r = Some table → heap w' !! r = Some table.

(** [w'] comes after [w] in a run: the maps of [w] are untouched, the log
    and the trace of reads have only grown. *)
Definition extends (w w' : World) : Prop :=
  frame w w' ∧
  (∃ ev, logged w' = logged w ++ ev) ∧
  (∃ rs, reads w' = reads w ++ rs).

(** Every syntax tree of the package has its position in a file of the
    package's file set. *)
Definition filesNamed (pkg : Package) : Prop :=
  ∀ files fset file,
    Syntax pkg = Some files → Fset pkg = Some fset → file ∈ files →
    is_Some (FileName fset (file_Pos file)).

(** The name a binding's chunk is filed under. *)
Definition entityNameOf (spec : Spec) : string :=
  match spec with
  | TypeSpec _ _ name _ => Name name
  | ValueSpec _ _ names _ _ => GoStrings.Join (map Name names) ", "
  | ImportSpec _ _ _ _ => ""
  end.

(** The metadata keys that belong to one binding. *)
Definition perBindingKeys : list string :=
  ["entity_name"; "type"; "type_category"].

(** The number of times a binding has the file read. *)
Definition specReads (spec : Spec) : nat :=
  match spec with
  | TypeSpec _ _ _ _ | ValueSpec _ _ _ _ _ => 1
  | ImportSpec _ _ _ _ => 0
  end.

(** The number of times a declaration with a valid span has the file read. *)
Definition declReads (decl : Decl) : nat :=
  match decl with
  | DGen _ _ IMPORT _ => 0
  | DGen _ _ _ Specs => sum_list (specReads <$> Specs)
  | _ => 0
  end.

(** The span of a declaration fails the offsets test of
    [processFileDeclarations]. *)
Definition invalidDecl (fset : FileSet) (content : string) (decl : Decl)
    : Prop :=
  parser.invalidOffsets (Offset (PositionOf fset (Decl_Pos decl)))
                        (Offset (PositionOf fset (Decl_End decl))) content.

(** The reads the declarations of a file cause, after the read that gave
    [content]. *)
Definition fileReads (fset : FileSet) (content : string) (decls : list Decl)
    : nat :=
  sum_list ((λ decl, if decide (invalidDecl fset content decl)
                     then 0%nat else declReads decl) <$> decls).

(** The metadata table of a function or method chunk, from the table the
    declaration starts with. *)
Definition functionMetadata (Fprint : Expr → option string)
    (TypeVerb : Expr → string) (info : Info) (funcDecl : FuncDecl)
    (table : gmap string Value) : gmap string Value :=
  let name := Name (fd_Name funcDecl) in
  let plain :=
    <["entity_name" := VString name]>
      (<["entity_type" := VString "function"]> table) in
  match fd_Recv funcDecl with
  | Some (recv0 :: _) =>
      let receiverType := analyzer.GetTypeString Fprint TypeVerb info recv0.2 in
      <["entity_name" := VString (receiverType +:+ "." +:+ name)]>
        (<["receiver_type" := VString receiverType]>
           (<["entity_type" := VString "method"]> plain))
  | _ => plain
  end.

(** The metadata every declaration starts with. *)
Definition fileMetadata (filePath packageName : string) (isVendored : bool)
    : gmap string Value :=
  <["file_path" := VString filePath]>
    (<["package_name" := VString packageName]>
       (<["is_vendored" := VBool isVendored]> ∅)).

(** The group-level metadata of a declaration: the file's entries and the
    symbols accessed in the whole declaration. *)
Definition groupMetadata (filePath packageName : string) (isVendored : bool)
    (decl : Decl) (info : option Info) : gmap string Value :=
  <["accessed_symbols" :=
      VStrings (analyzer.ExtractAccessedSymbols (Some (NDecl decl)) info)]>
    (fileMetadata filePath packageName isVendored).

(** What is true of the chunk [c] of a binding of the group [Specs] once
    the run has reached [w']: its metadata is a map holding the group-level
    entries of [tb] and the binding's own name, its identifier is built from
    the binding's lines and name, and its text was sliced from a read of
    the file numbered [firstRead] or later. *)
Definition bindingChunk (ReadFile : nat → string → option string)
    (order : gmap string string → transform.MapOrder) (pkg : Package)
    (fset : FileSet) (path : string) (tb : gmap string Value)
    (firstRead : nat) (Specs : list Spec) (w' : World) (c : ChromaDocument)
    : Prop :=
  ∃ tc spec,
    heap w' !! Metadata c = Some tc ∧ spec ∈ Specs ∧
    (∀ k, k ∉ perBindingKeys → tc !! k = tb !! k) ∧
    tc !! "entity_name" = Some (VString (entityNameOf spec)) ∧
    ChunkID c = parser.Sprintf_ID path
                  (Line (PositionOf fset (Spec_Pos spec)))
                  (Line (PositionOf fset (Spec_End spec))) (entityNameOf spec) ∧
    ∃ n content code,
      (firstRead ≤ n)%nat ∧ ReadFile n path = Some content ∧
      slice content (Offset (PositionOf fset (Spec_Pos spec)))
                    (Offset (PositionOf fset (Spec_End spec))) = Some code ∧
      Document c = transform.ApplyQualifierReplacements order code
                     (Some (NSpec spec)) (TypesInfo pkg).

(** Where the text of a chunk of a file comes from: a function or method
    chunk is sliced, at the span of its declaration, from [content]; the
    chunk of a binding is sliced, at the span of the binding, from what a
    read of the file numbered [firstRead] or later returned. *)
Definition slicedFrom (ReadFile : nat → string → option string)
    (order : gmap string string → transform.MapOrder) (pkg : Package)
    (fset : FileSet) (path : string) (content : string) (firstRead : nat)
    (decls : list Decl) (c : ChromaDocument) : Prop :=
  (∃ funcDecl code,
     DFunc funcDecl ∈ decls ∧
     slice content (Offset (PositionOf fset (fd_Pos funcDecl)))
                   (Offset (PositionOf fset (fd_End funcDecl))) = Some code ∧
     Document c = transform.ApplyQualifierReplacements order code
                    (Some (NDecl (DFunc funcDecl))) (TypesInfo pkg)) ∨
  (∃ p e Tok Specs spec n later code,
     DGen p e Tok Specs ∈ decls ∧ spec ∈ Specs ∧
     (firstRead ≤ n)%nat ∧ ReadFile n path = Some later ∧
     slice later (Offset (PositionOf fset (Spec_Pos spec)))
                 (Offset (PositionOf fset (Spec_End spec))) = Some code ∧
     Document c = transform.ApplyQualifierReplacements order code
                    (Some (NSpec spec)) (TypesInfo pkg)).

End observe.

(* ===================================================================== *)
(** ** Vocabulary for texts with qualified references *)
(* ===================================================================== *)

Module pieces.
Import GoStrings Ast.

(** [sub] occurs in [s]; [contains s sub] decides it. *)
Definition occursIn (sub s : string) : Prop :=
  ∃ pre post, s = pre +:+ sub +:+ post.

Fixpoint contains (s sub : string) : bool :=
  String.prefix sub s ||
  match s with
  | EmptyString => false
  | String _ s' => contains s' sub
  end.

(** [s] ends with [suffix]. *)
Fixpoint endsWith (s suffix : string) : bool :=
  String.eqb s suffix ||
  match s with
  | EmptyString => false
  | String _ s' => endsWith s' suffix
  end.

(** A stretch of text up to and including a dot: either it ends in a
    reference [alias.], with [before] in front of the alias, or it is any
    other text [body.]. *)
Inductive Piece :=
| Ref (before alias : string)
| Other (body : string).

Definition textOf (p : Piece) : string :=
  match p with
  | Ref before alias => before +:+ alias +:+ "."
  | Other body => body +:+ "."
  end.

(** The piece with its alias replaced by the import path. *)
Definition rewritten (replacements : gmap string string) (p : Piece)
    : string :=
  match p with
  | Ref before alias => before +:+ transform.mapGet replacements alias +:+ "."
  | Other body => body +:+ "."
  end.

Definition flatten (l : list string) : string := foldr String.append "" l.

(** An alias the rewrite can tell from its own placeholders: it is not
    empty, has no dot, and does not end in an underscore. *)
Definition plainAlias (a : string) : bool :=
  negb (String.eqb a "") && negb (contains a ".") && negb (endsWith a "_").

(** An import path that cannot be taken for a placeholder: followed by a
    dot, it does not start with a dot and has no underscore directly
    before a dot. *)
Definition plainPath (p : string) : bool :=
  negb (String.prefix "." (p +:+ ".")) && negb (contains (p +:+ ".") "_.").

Definition plainEntry (e : string * string) : bool :=
  plainAlias e.1 && plainPath e.2.

(** A reference is a reference to the longest alias that ends at its dot,
    with no further dot before the alias; any other piece holds no alias
    followed by a dot and no underscore followed by a dot. *)
Definition wellFormed (replacements : gmap string string) (p : Piece)
    : bool :=
  let aliases := (map_to_list replacements).*1 in
  match p with
  | Ref before alias =>
      bool_decide (is_Some (replacements !! alias)) &&
      negb (contains (before +:+ alias) ".") &&
      forallb (λ b, implb (endsWith (before +:+ alias) b)
                          (String.length b <=? String.length alias)%nat)
              aliases
  | Other body =>
      forallb (λ b, negb (contains (body +:+ ".") (b +:+ "."))) aliases &&
      negb (contains (body +:+ ".") "_.")
  end.

(** A run of replacements of [X.] by [N.], one for each rule [(X, N)]. *)
Definition passes (rules : list (string * string)) (s : string) : string :=
  foldl (λ s r, ReplaceAll s (r.1 +:+ ".") (r.2 +:+ ".")) s rules.

(** The rules take the block [B] to [B'], and before each replacement the
    block ends in a dot. *)
Fixpoint tracks (rules : list (string * string)) (B B' : string) : Prop :=
  match rules with
  | [] => B' = B
  | r :: rules =>
      (∃ C, B = C +:+ ".") ∧
      tracks rules (replaceFrom (r.1 +:+ ".") (r.2 +:+ ".") 0 B) B'
  end.

End pieces.

(* ===================================================================== *)
(** * Theorems *)
(* ===================================================================== *)

(** ** The order of [sort.Strings] *)

Section StringOrder.
Import GoStrings.

Lemma ascii_compare_as_N (a b : ascii) :
  Ascii.compare a b = N.compare (N_of_ascii a) (N_of_ascii b).
Proof. reflexivity. Qed.

Lemma string_compare_not_gt_trans (s1 s2 s3 : string) :
  String.compare s1 s2 ≠ Gt → String.compare s2 s3 ≠ Gt →
  String.compare s1 s3 ≠ Gt.
Proof.
  revert s2 s3. induction s1 as [|c1 s1 IH]; intros [|c2 s2] [|c3 s3];
    simpl; try congruence.
  rewrite !ascii_compare_as_N.
  destruct (N.compare_spec (N_of_ascii c1) (N_of_ascii c2)) as [E12|L12|G12];
    try congruence;
    destruct (N.compare_spec (N_of_ascii c2) (N_of_ascii c3)) as [E23|L23|G23];
    try congruence; intros H12 H23.
  - rewrite E12, E23, N.compare_refl. eauto.
  - rewrite E12. apply N.compare_lt_iff in L23. rewrite L23. congruence.
  - rewrite <- E23. apply N.compare_lt_iff in L12. rewrite L12. congruence.
  - assert (N_of_ascii c1 < N_of_ascii c3)%N as L by lia.
    apply N.compare_lt_iff in L. rewrite L. congruence.
Qed.

Lemma leb_not_gt (s1 s2 : string) :
  String.leb s1 s2 = true ↔ String.compare s1 s2 ≠ Gt.
Proof. unfold String.leb. destruct (String.compare s1 s2); split; congruence. Qed.

#[global] Instance str_le_trans : Transitive str_le.
Proof.
  intros s1 s2 s3. unfold str_le. rewrite !leb_not_gt.
  apply string_compare_not_gt_trans.
Qed.

#[global] Instance str_le_total : Total str_le.
Proof. intros s1 s2. apply String.leb_total. Qed.

#[global] Instance str_le_antisym : AntiSymm eq str_le.
Proof. intros s1 s2. apply String.leb_antisym. Qed.

(** [sort.Strings] does not depend on the order of its input. *)
Lemma sort_Strings_perm (l1 l2 : list string) :
  l1 ≡ₚ l2 → sort_Strings l1 = sort_Strings l2.
Proof.
  intros HP. unfold sort_Strings.
  apply (StronglySorted_unique str_le);
    try (apply StronglySorted_merge_sort; apply _).
  by rewrite !merge_sort_Permutation.
Qed.

Lemma sort_Strings_sorted (l : list string) :
  StronglySorted str_le (sort_Strings l).
Proof. apply StronglySorted_merge_sort; apply _. Qed.

Lemma sort_Strings_elem (l : list string) (s : string) :
  s ∈ sort_Strings l ↔ s ∈ l.
Proof. unfold sort_Strings. by rewrite merge_sort_Permutation. Qed.

Lemma sort_Strings_NoDup (l : list string) :
  NoDup l → NoDup (sort_Strings l).
Proof. unfold sort_Strings. by rewrite merge_sort_Permutation. Qed.

End StringOrder.

(** ** The Symbol Resolver *)

Section ResolverFacts.
Import GoStrings Ast analyzer.

Lemma accessedAt_elem (info : Info) (acc : gset string) (e : Expr) (s : string) :
  s ∈ accessedAt info acc e ↔
  s ∈ acc ∨ ∃ ident sel path,
    e = SelectorExpr (EIdent ident) sel ∧
    Uses info ident = Some (PkgName path) ∧
    s = path +:+ "." +:+ Name sel.
Proof.
  unfold accessedAt.
  destruct e as [| | | |X Sel| | | | | |];
    try (split; [by left | by intros [?|(? & ? & ? & ? & _)]]).
  destruct X as [ident| | | | | | | | | |];
    try (split; [by left | by intros [?|(? & ? & ? & ? & _)]]).
  destruct (Uses info ident) as [[path|]|] eqn:HU.
  - rewrite elem_of_union, elem_of_singleton. split.
    + intros [->|?]; [right|by left]. by exists ident, Sel, path.
    + intros [?|(i0 & s0 & p0 & Heq & HU' & ->)]; [by right|].
      injection Heq as <- <-. rewrite HU in HU'. injection HU' as <-. by left.
  - split; [by left|].
    intros [?|(i0 & s0 & p0 & Heq & HU' & _)]; [done|].
    injection Heq as <- <-. congruence.
  - split; [by left|].
    intros [?|(i0 & s0 & p0 & Heq & HU' & _)]; [done|].
    injection Heq as <- <-. congruence.
Qed.

Lemma accessed_fold_elem (info : Info) (l : list Expr) (acc : gset string)
    (s : string) :
  s ∈ foldl (accessedAt info) acc l ↔
  s ∈ acc ∨ ∃ ident sel path,
    SelectorExpr (EIdent ident) sel ∈ l ∧
    Uses info ident = Some (PkgName path) ∧
    s = path +:+ "." +:+ Name sel.
Proof.
  revert acc. induction l as [|e l IH]; intros acc; simpl.
  - split; [by left|]. intros [?|(? & ? & ? & H & _)]; [done|]. by inversion H.
  - rewrite IH, accessedAt_elem. split.
    + intros [[?|(ident & sel & path & -> & ? & ?)]|(ident & sel & path & ? & ? & ?)].
      * by left.
      * right. exists ident, sel, path. split; [left|done].
      * right. exists ident, sel, path. split; [by right|done].
    + intros [?|(ident & sel & path & Hin & ? & ?)]; [by left; left|].
      apply elem_of_cons in Hin as [<-|Hin].
      * left; right. by exists ident, sel, path.
      * right. by exists ident, sel, path.
Qed.

Lemma accessedSet_elem (node : Node) (info : Info) (s : string) :
  s ∈ accessedSet node info ↔
  ∃ ident sel path,
    SelectorExpr (EIdent ident) sel ∈ Inspect node ∧
    Uses info ident = Some (PkgName path) ∧
    s = path +:+ "." +:+ Name sel.
Proof.
  unfold accessedSet. rewrite accessed_fold_elem. split; [|by right].
  by intros [?%not_elem_of_empty|?].
Qed.

End ResolverFacts.

(** C7.  The accessed-symbols operation returns a list without duplicates,
    sorted in byte-wise lexical order, holding exactly the strings
    [<import path>.<member>] of the member selections in the subtree whose
    base identifier is bound to an imported package name.  It is a total
    function with no error result: for a nil subtree or a nil type table the
    result is empty.  The order in which Go walks the keys of the set does
    not show in the result. *)
Theorem C7_accessed_symbols_sorted_unique
    (node : option Ast.Node) (info : option Ast.Info) :
  NoDup (analyzer.ExtractAccessedSymbols node info) ∧
  StronglySorted GoStrings.str_le (analyzer.ExtractAccessedSymbols node info) ∧
  (∀ s, s ∈ analyzer.ExtractAccessedSymbols node info ↔
        ∃ n i ident sel path,
          node = Some n ∧ info = Some i ∧
          Ast.SelectorExpr (Ast.EIdent ident) sel ∈ Ast.Inspect n ∧
          Ast.Uses i ident = Some (Ast.PkgName path) ∧
          s = path +:+ "." +:+ Ast.Name sel) ∧
  (node = None ∨ info = None → analyzer.ExtractAccessedSymbols node info = []) ∧
  (∀ keys : gset string → list string,
      (∀ X, keys X ≡ₚ elements X) →
      analyzer.ExtractAccessedSymbols_in keys node info =
      analyzer.ExtractAccessedSymbols node info).
Proof.
  unfold analyzer.ExtractAccessedSymbols, analyzer.ExtractAccessedSymbols_in.
  assert (node = None ∨ info = None → ∀ s : string, s ∈ @nil string ↔
            ∃ n i ident sel path,
              node = Some n ∧ info = Some i ∧
              Ast.SelectorExpr (Ast.EIdent ident) sel ∈ Ast.Inspect n ∧
              Ast.Uses i ident = Some (Ast.PkgName path) ∧
              s = path +:+ "." +:+ Ast.Name sel) as Hnil.
  { intros Hnone s. split; [by intros ?%elem_of_nil|].
    intros (n & i & ? & ? & ? & -> & -> & _). by destruct Hnone. }
  destruct node as [n|], info as [i|]; simpl.
  2-4: split; [constructor|]; split; [constructor|]; split; [|done];
       apply Hnil; auto.
  clear Hnil. split; [|split; [|split; [|split]]].
  - apply sort_Strings_NoDup, NoDup_elements.
  - apply sort_Strings_sorted.
  - intros s. rewrite sort_Strings_elem, elem_of_elements, accessedSet_elem.
    split.
    + intros (ident & sel & path & ? & ? & ?). by exists n, i, ident, sel, path.
    + intros (n' & i' & ident & sel & path & [= <-] & [= <-] & ? & ? & ?).
      by exists ident, sel, path.
  - by intros [?|?].
  - intros keys Hkeys. by apply sort_Strings_perm.
Qed.

(** The scenario of the specification: [fmt.Println] in the body of a
    function, and nothing for a nil subtree. *)
Lemma C7_accessed_symbols_witness :
  analyzer.ExtractAccessedSymbols None (Some examples.info) = [].
Proof.
  destruct (C7_accessed_symbols_sorted_unique None (Some examples.info))
    as (_ & _ & _ & Hnil & _).
  apply Hnil. by left.
Defined.

Example ExtractAccessedSymbols_call :
  analyzer.ExtractAccessedSymbols (Some examples.call) (Some examples.info)
  = ["pkg/a.Bar"; "pkg/ab.Foo"].
Proof. vm_compute. reflexivity. Qed.

(** C10.  When the type table has no type for an interface literal,
    [GetTypeString] renders it as [interface{}] whatever its method list;
    the structural rendering is used in no other case, for a recorded type
    is returned as it is. *)
Theorem C10_interface_literal_fallback
    (Fprint : Ast.Expr → option string) (TypeVerb : Ast.Expr → string)
    (info : Ast.Info) (methods : list (list Ast.Ident * Ast.Expr)) :
  (Ast.TypeOf info (Ast.InterfaceType methods) = None →
   analyzer.GetTypeString Fprint TypeVerb info (Ast.InterfaceType methods)
   = "interface{}") ∧
  (∀ tv, Ast.TypeOf info (Ast.InterfaceType methods) = Some tv →
   analyzer.GetTypeString Fprint TypeVerb info (Ast.InterfaceType methods) = tv).
Proof.
  split.
  - intros H. simpl. by rewrite H.
  - intros tv H. simpl. by rewrite H.
Qed.

(** [interface{ Read() }] loses its method. *)
Lemma C10_interface_literal_fallback_witness :
  analyzer.GetTypeString examples.Fprint examples.TypeVerb examples.info
    examples.reader = "interface{}".
Proof.
  destruct (C10_interface_literal_fallback examples.Fprint examples.TypeVerb
              examples.info [([Ast.mkIdent 12 "Read"],
                              Ast.FuncType (Some []) None)]) as [Hnone _].
  apply Hnone. reflexivity.
Defined.

(** ** The Qualifier Rewriter *)

Section RewriterFacts.
Import GoStrings Ast transform.

(** A traversal that meets only aliases equal to their import paths
    records nothing. *)
Lemma replacement_fold_unchanged (info : Info) (l : list Expr)
    (acc : gmap string string) :
  (∀ ident sel path,
      SelectorExpr (EIdent ident) sel ∈ l →
      Uses info ident = Some (PkgName path) → Name ident = path) →
  foldl (replacementAt info) acc l = acc.
Proof.
  revert acc. induction l as [|e l IH]; intros acc Hsame; [done|].
  simpl. rewrite IH.
  - unfold replacementAt.
    destruct e as [| | | |X Sel| | | | | |]; try done.
    destruct X as [ident| | | | | | | | | |]; try done.
    destruct (Uses info ident) as [[path|]|] eqn:HU; try done.
    case_decide as Hne; [|done].
    destruct Hne. apply (Hsame ident Sel path); [left|done].
  - intros ident sel path Hin. apply (Hsame ident sel path). by right.
Qed.

Lemma substitute_empty (o : MapOrder) (chunkCode : string) :
  substitute o ∅ chunkCode = chunkCode.
Proof. unfold substitute. by rewrite map_size_empty. Qed.

(** The aliases in [tempMap] are those handed to the numbering loop. *)
Lemma assignPlaceholders_dom (entries : list (string * string)) (i : Z)
    (tempMap finalMap : gmap string string) :
  dom (assignPlaceholders entries i tempMap finalMap).1
  = list_to_set entries.*1 ∪ dom tempMap.
Proof.
  revert i tempMap finalMap.
  induction entries as [|[q p] entries IH]; intros i t f; simpl.
  - set_solver.
  - rewrite IH, dom_insert_L. set_solver.
Qed.

End RewriterFacts.

(** C3.  When the traversal discovers no replacement pair, the qualifier
    rewrite returns its input unchanged.  This covers a nil subtree, a nil
    type table, an empty replacement map, and a subtree in which every
    alias bound to an imported package is that package's import path. *)
Theorem C3_no_alias_no_change
    (order : gmap string string → transform.MapOrder) (chunkCode : string)
    (node : option Ast.Node) (info : option Ast.Info) :
  node = None ∨ info = None ∨
  (∃ n i, node = Some n ∧ info = Some i ∧
     (transform.discoverReplacements n i = ∅ ∨
      ∀ ident sel path,
        Ast.SelectorExpr (Ast.EIdent ident) sel ∈ Ast.Inspect n →
        Ast.Uses i ident = Some (Ast.PkgName path) → Ast.Name ident = path)) →
  transform.ApplyQualifierReplacements order chunkCode node info = chunkCode.
Proof.
  intros [->|[->|(n & i & -> & -> & H)]].
  - done.
  - by destruct node.
  - simpl.
    assert (transform.discoverReplacements n i = ∅) as ->.
    { destruct H as [?|H]; [done|].
      by apply replacement_fold_unchanged. }
    apply substitute_empty.
  Qed.

(** [fmt.Println] under the alias [fmt]: the alias is the import path. *)
Lemma C3_no_alias_no_change_witness :
  transform.ApplyQualifierReplacements examples.noOrder
    "func Hello() { fmt.Println(1) }" (Some examples.hello_body) (Some examples.info)
  = "func Hello() { fmt.Println(1) }".
Proof.
  apply (C3_no_alias_no_change examples.noOrder _ (Some examples.hello_body)
           (Some examples.info)).
  right; right. exists examples.hello_body, examples.info.
  split; [reflexivity|]. split; [reflexivity|].
  left. vm_compute. reflexivity.
Defined.

Section Placeholders.
Import GoStrings Ast transform.

Lemma append_inj_l (s a b : string) : s +:+ a = s +:+ b → a = b.
Proof. induction s as [|c s IH]; simpl; [done|]. intros [= H]. auto. Qed.

Lemma append_length (a b : string) :
  String.length (a +:+ b) = (String.length a + String.length b)%nat.
Proof. induction a as [|c a IH]; simpl; [done|]. by rewrite IH. Qed.

Lemma append_inj_r (a b t : string) : a +:+ t = b +:+ t → a = b.
Proof.
  revert b. induction a as [|c a IH]; intros [|d b]; simpl; try done.
  - intros H. apply (f_equal String.length) in H.
    rewrite !append_length in H. simpl in H. lia.
  - intros H. apply (f_equal String.length) in H.
    rewrite !append_length in H. simpl in H. lia.
  - intros [= -> H]. f_equal. auto.
Qed.

Lemma to_int_not_nil (z : Z) :
  Z.to_int z ≠ Decimal.Pos Decimal.Nil ∧ Z.to_int z ≠ Decimal.Neg Decimal.Nil.
Proof.
  destruct z as [|p|p]; simpl; split; try discriminate;
    intros [= H]; by apply DecimalPos.Unsigned.to_uint_nonnil in H.
Qed.

Lemma Itoa_inj (n m : Z) : Itoa n = Itoa m → n = m.
Proof.
  unfold Itoa. intros H. apply DecimalZ.to_int_inj.
  destruct (to_int_not_nil n) as [Hn1 Hn2], (to_int_not_nil m) as [Hm1 Hm2].
  pose proof (NilZero.isi _ Hn1 Hn2) as En.
  pose proof (NilZero.isi _ Hm1 Hm2) as Em.
  rewrite H in En. congruence.
Qed.

Lemma placeholderOf_inj (n m : Z) : placeholderOf n = placeholderOf m → n = m.
Proof.
  unfold placeholderOf. intros H%append_inj_l%append_inj_r. by apply Itoa_inj.
Qed.

(** An alias in [tempMap] was either there before the loop or is mapped to
    the placeholder numbered with its place in the [range] order. *)
Lemma assignPlaceholders_lookup (entries : list (string * string)) (i : Z)
    (tempMap finalMap : gmap string string) (q p : string) :
  (assignPlaceholders entries i tempMap finalMap).1 !! q = Some p →
  (∃ k : nat, entries.*1 !! k = Some q ∧ p = placeholderOf (i + Z.of_nat k)) ∨
  tempMap !! q = Some p.
Proof.
  revert i tempMap finalMap.
  induction entries as [|[q0 p0] entries IH]; intros i t f; simpl; [by right|].
  intros [(k & Hk & ->)|H]%IH.
  - left. exists (S k). split; [done|]. f_equal. lia.
  - apply lookup_insert_Some in H as [[-> <-]|[_ H]]; [|by right].
    left. exists 0%nat. split; [done|]. f_equal. lia.
Qed.

End Placeholders.

Lemma order_a_ab_admissible :
  transform.admissible examples.a_ab examples.order_a_ab.
Proof.
  unfold transform.admissible. simpl. split.
  - replace (map_to_list examples.a_ab) with [("ab", "pkg/ab"); ("a", "pkg/a")]
      by (vm_compute; reflexivity).
    apply perm_swap.
  - split; (split; [vm_compute; try reflexivity; apply perm_swap|]).
    + intros [|[|i]] [|[|j]] x y Hij Hx Hy; simpl in *; simplify_eq;
        try lia; unfold transform.longerFirst; simpl; lia.
    + intros [|[|i]] [|[|j]] x y Hij Hx Hy; simpl in *; simplify_eq;
        try lia; unfold transform.longerFirst; vm_compute; lia.
Qed.

(** The map of the example is the one discovered in [ab.Foo(a.Bar)]. *)
Example discover_call :
  transform.discoverReplacements examples.call examples.info = examples.a_ab.
Proof. vm_compute. reflexivity. Qed.

(** ** Replacing a dot-terminated pattern *)

Lemma app_nil_l_s (s : string) : "" +:+ s = s.
Proof. reflexivity. Qed.

Lemma app_cons_s (c : ascii) (a b : string) :
  String c a +:+ b = String c (a +:+ b).
Proof. reflexivity. Qed.

Ltac push_app_in H :=
  repeat (rewrite app_cons_s in H || rewrite app_nil_l_s in H).

Ltac push_app := repeat (rewrite app_cons_s || rewrite app_nil_l_s).

Section DotPatterns.
Import GoStrings pieces.


Lemma app_nil_r_s (a : string) : a +:+ "" = a.
Proof. induction a as [|c a IH]; [done|]. by rewrite app_cons_s, IH. Qed.

Lemma app_assoc_s (a b c : string) : (a +:+ b) +:+ c = a +:+ b +:+ c.
Proof. induction a as [|x a IH]; [done|]. by rewrite !app_cons_s, IH. Qed.

(** Two ways of cutting one string in two. *)
Lemma app_split (a b c d : string) :
  a +:+ b = c +:+ d →
  (∃ m, c = a +:+ m ∧ b = m +:+ d) ∨ (∃ m, a = c +:+ m ∧ d = m +:+ b).
Proof.
  revert c. induction a as [|x a IH]; intros c H.
  - left. by exists c.
  - destruct c as [|y c].
    + right. by exists (String x a).
    + rewrite !app_cons_s in H. injection H as -> H.
      destruct (IH c H) as [(m & -> & ->)|(m & -> & ->)].
      * left. by exists m.
      * right. by exists m.
Qed.

Lemma prefix_app (p s : string) :
  String.prefix p s = true ↔ ∃ post, s = p +:+ post.
Proof.
  revert s. induction p as [|c p IH]; intros s.
  - split; [intros _; by exists s|intros _; by destruct s].
  - destruct s as [|d s]; cbn [String.prefix].
    + split; [done|]. by intros [post H].
    + destruct (ascii_dec c d) as [->|Hne].
      * rewrite IH. split.
        -- intros [post ->]. by exists post.
        -- intros [post H]. rewrite app_cons_s in H. injection H as ->.
           by exists post.
      * split; [done|]. intros [post H]. rewrite app_cons_s in H. congruence.
Qed.

Lemma occursIn_trans (a b c : string) :
  occursIn a b → occursIn b c → occursIn a c.
Proof.
  intros (p1 & q1 & ->) (p2 & q2 & ->).
  exists (p2 +:+ p1), (q1 +:+ q2). by rewrite !app_assoc_s.
Qed.

Lemma occursIn_app_l (sub a b : string) : occursIn sub a → occursIn sub (a +:+ b).
Proof.
  intros (p & q & ->). exists p, (q +:+ b). by rewrite !app_assoc_s.
Qed.

Lemma occursIn_app_r (sub a b : string) : occursIn sub b → occursIn sub (a +:+ b).
Proof.
  intros (p & q & ->). exists (a +:+ p), q. by rewrite !app_assoc_s.
Qed.

Lemma occursIn_cons (sub : string) (c : ascii) (s : string) :
  occursIn sub s → occursIn sub (String c s).
Proof. intros (p & q & ->). by exists (String c p), q. Qed.

Lemma no_dot_cons (c : ascii) (s : string) :
  ¬ occursIn "." (String c s) → c ≠ "."%char ∧ ¬ occursIn "." s.
Proof.
  intros H. split.
  - intros ->. apply H. by exists "", s.
  - intros Hs. by apply H, occursIn_cons.
Qed.

Lemma no_dot_cons_inv (c : ascii) (s : string) :
  c ≠ "."%char → ¬ occursIn "." s → ¬ occursIn "." (String c s).
Proof.
  intros Hc Hs (p & q & H). destruct p as [|x p].
  - rewrite app_nil_l_s, app_cons_s in H. congruence.
  - rewrite app_cons_s in H. injection H as -> ->. apply Hs. by exists p, q.
Qed.

Lemma no_dot_app (a b : string) :
  ¬ occursIn "." a → ¬ occursIn "." b → ¬ occursIn "." (a +:+ b).
Proof.
  intros Ha Hb. induction a as [|c a IH]; [done|].
  apply no_dot_cons in Ha as [Hc Ha]. rewrite app_cons_s.
  by apply no_dot_cons_inv, IH.
Qed.

(** A string with a dot has a first dot. *)
Lemma first_dot (s : string) :
  occursIn "." s → ∃ W rest, s = W +:+ "." +:+ rest ∧ ¬ occursIn "." W.
Proof.
  induction s as [|c s IH]; intros (p & q & H).
  - destruct p; by rewrite ?app_cons_s in H.
  - destruct (ascii_dec c ".") as [->|Hc].
    + exists "", s. split; [done|]. intros (p' & q' & H'). by destruct p'.
    + destruct p as [|x p].
      * rewrite app_nil_l_s, app_cons_s in H. congruence.
      * rewrite app_cons_s in H. injection H as -> ->.
        destruct IH as (W & rest & -> & HW); [by exists p, q|].
        exists (String x W), rest. split; [done|].
        by apply no_dot_cons_inv.
Qed.

(** Up to their first dot, two strings that are equal agree. *)
Lemma first_dot_unique (X W post rest : string) :
  ¬ occursIn "." X → ¬ occursIn "." W →
  X +:+ "." +:+ post = W +:+ "." +:+ rest → X = W ∧ post = rest.
Proof.
  revert W. induction X as [|x X IH]; intros [|w W] HX HW H; push_app_in H.
  - by injection H as ->.
  - injection H as <- _. by apply no_dot_cons in HW as [? _].
  - injection H as -> _. by apply no_dot_cons in HX as [? _].
  - injection H as -> H. apply no_dot_cons in HX as [_ HX].
    apply no_dot_cons in HW as [_ HW].
    destruct (IH W HX HW H) as [-> ->]. done.
Qed.

(** *** The scanning loop *)

Lemma replaceFrom_skip (old new a s : string) :
  replaceFrom old new (String.length a) (a +:+ s) = replaceFrom old new 0 s.
Proof. induction a as [|c a IH]; [done|]. by rewrite app_cons_s. Qed.

Lemma replaceFrom_match (c : ascii) (old' new post : string) :
  replaceFrom (String c old') new 0 (String c old' +:+ post)
  = new +:+ replaceFrom (String c old') new 0 post.
Proof.
  rewrite app_cons_s. cbn [replaceFrom].
  assert (String.prefix (String c old') (String c (old' +:+ post)) = true) as ->.
  { apply prefix_app. by exists post. }
  f_equal. cbn [String.length]. rewrite Nat.sub_1_r. simpl Nat.pred.
  apply replaceFrom_skip.
Qed.

Lemma replaceFrom_nomatch (old new : string) (c : ascii) (s : string) :
  String.prefix old (String c s) = false →
  replaceFrom old new 0 (String c s) = String c (replaceFrom old new 0 s).
Proof. intros H. cbn [replaceFrom]. by rewrite H. Qed.

(** A pattern that does not occur is not replaced. *)
Lemma replaceFrom_absent (old new s : string) :
  ¬ occursIn old s → replaceFrom old new 0 s = s.
Proof.
  induction s as [|c s IH]; intros Hocc; [done|].
  rewrite replaceFrom_nomatch.
  - f_equal. apply IH. intros H. by apply Hocc, occursIn_cons.
  - destruct (String.prefix old (String c s)) eqn:Hp; [|done].
    apply prefix_app in Hp as [post Hp]. exfalso. apply Hocc.
    exists "", post. by rewrite app_nil_l_s.
Qed.

(** The pattern [X.] for a name [X] without a dot. *)
Lemma dot_pattern_cons (X : string) : ∃ c old', X +:+ "." = String c old'.
Proof. destruct X as [|c X]; [by exists "."%char, ""|by exists c, (X +:+ ".")]. Qed.

Lemma ReplaceAll_dot (s X new : string) :
  ReplaceAll s (X +:+ ".") new = replaceFrom (X +:+ ".") new 0 s.
Proof.
  unfold ReplaceAll. destruct (dot_pattern_cons X) as (c & old' & ->). done.
Qed.

Lemma replaceFrom_match_dot (X new post : string) :
  replaceFrom (X +:+ ".") new 0 (X +:+ "." +:+ post)
  = new +:+ replaceFrom (X +:+ ".") new 0 post.
Proof.
  rewrite <- app_assoc_s.
  destruct (dot_pattern_cons X) as (c & old' & ->). apply replaceFrom_match.
Qed.

(** One word and its dot are rewritten on their own. *)
Lemma replaceFrom_word (X new W rest : string) :
  ¬ occursIn "." X → ¬ occursIn "." W →
  replaceFrom (X +:+ ".") new 0 (W +:+ "." +:+ rest)
  = replaceFrom (X +:+ ".") new 0 (W +:+ ".")
    +:+ replaceFrom (X +:+ ".") new 0 rest.
Proof.
  intros HX. induction W as [|c W IH]; intros HW.
  - push_app.
    destruct (String.prefix (X +:+ ".") (String "." rest)) eqn:Hp.
    + apply prefix_app in Hp as [post Hp]. rewrite app_assoc_s in Hp.
      destruct (first_dot_unique "" X rest post) as [<- <-]; [|done|done|].
      { intros (p & q & H). by destruct p. }
      pose proof (replaceFrom_match_dot "" new rest) as E1.
      pose proof (replaceFrom_match_dot "" new "") as E2.
      push_app_in E1. push_app_in E2. push_app.
      rewrite E1, E2. cbn [replaceFrom]. by rewrite app_nil_r_s.
    + assert (String.prefix (X +:+ ".") (String "." "") = false) as Hp'.
      { destruct (String.prefix (X +:+ ".") (String "." "")) eqn:Hq; [|done].
        apply prefix_app in Hq as [post Hq].
        assert (String.prefix (X +:+ ".") (String "." rest) = true) as Hc;
          [|congruence].
        apply prefix_app. exists (post +:+ rest).
        rewrite <- app_assoc_s, <- Hq. by push_app. }
      rewrite !replaceFrom_nomatch by done. by push_app.
  - apply no_dot_cons in HW as [Hc HW].
    destruct (String.prefix (X +:+ ".") (String c W +:+ "." +:+ rest)) eqn:Hp.
    + apply prefix_app in Hp as [post Hp]. rewrite app_assoc_s in Hp.
      destruct (first_dot_unique (String c W) X rest post) as [HWX <-];
        [by apply no_dot_cons_inv|done|done|].
      rewrite HWX, replaceFrom_match_dot.
      pose proof (replaceFrom_match_dot X new "") as E.
      rewrite app_nil_r_s in E. rewrite E. cbn [replaceFrom].
      by rewrite app_nil_r_s.
    + assert (String.prefix (X +:+ ".") (String c W +:+ ".") = false) as Hp'.
      { destruct (String.prefix (X +:+ ".") (String c W +:+ ".")) eqn:Hq;
          [|done].
        apply prefix_app in Hq as [post Hq].
        assert (String.prefix (X +:+ ".") (String c W +:+ "." +:+ rest)
                = true) as Hc'; [|congruence].
        apply prefix_app. exists (post +:+ rest).
        by rewrite <- !app_assoc_s, Hq. }
      rewrite !(app_cons_s c W) in *.
      rewrite !replaceFrom_nomatch by done.
      rewrite (app_cons_s c (replaceFrom (X +:+ ".") new 0 (W +:+ "."))).
      f_equal. by apply IH.
Qed.


Lemma dot_decide (s : string) : occursIn "." s ∨ ¬ occursIn "." s.
Proof.
  induction s as [|c s IH].
  - right. intros (p & q & H). by destruct p.
  - destruct (ascii_dec c ".") as [->|Hc]; [left; by exists "", s|].
    destruct IH as [IH|IH]; [left; by apply occursIn_cons|].
    right. by apply no_dot_cons_inv.
Qed.

Lemma no_dot_app_l (a b : string) : ¬ occursIn "." (a +:+ b) → ¬ occursIn "." a.
Proof. intros H Ha. by apply H, occursIn_app_l. Qed.

Lemma no_dot_app_r (a b : string) : ¬ occursIn "." (a +:+ b) → ¬ occursIn "." b.
Proof. intros H Hb. by apply H, occursIn_app_r. Qed.

Lemma app_length_s (a b : string) :
  String.length (a +:+ b) = (String.length a + String.length b)%nat.
Proof.
  induction a as [|c a IH]; [done|].
  rewrite app_cons_s. cbn [String.length]. by rewrite IH.
Qed.

(** A block that ends in a dot is rewritten on its own. *)
Lemma replaceFrom_block (X new C rest : string) :
  ¬ occursIn "." X →
  replaceFrom (X +:+ ".") new 0 ((C +:+ ".") +:+ rest)
  = replaceFrom (X +:+ ".") new 0 (C +:+ ".")
    +:+ replaceFrom (X +:+ ".") new 0 rest.
Proof.
  intros HX.
  assert (∀ n C rest, (String.length C ≤ n)%nat →
    replaceFrom (X +:+ ".") new 0 ((C +:+ ".") +:+ rest)
    = replaceFrom (X +:+ ".") new 0 (C +:+ ".")
      +:+ replaceFrom (X +:+ ".") new 0 rest) as H.
  { clear C rest. induction n as [|n IH]; intros C rest Hlen;
      (destruct (dot_decide C) as [Hd|Hd];
       [|rewrite app_assoc_s; by apply replaceFrom_word]);
      apply first_dot in Hd as (W & C' & -> & HW);
      rewrite !app_length_s in Hlen; cbn [String.length] in Hlen; [lia|].
    rewrite !app_assoc_s.
    rewrite (replaceFrom_word X new W) by done.
    rewrite <- (app_assoc_s C' "." rest).
    rewrite IH by lia.
    rewrite (replaceFrom_word X new W (C' +:+ ".")) by done.
    by rewrite app_assoc_s. }
  by apply (H (String.length C)).
Qed.

(** A word that ends in the name [X] has it replaced. *)
Lemma replaceFrom_hit (X new u : string) :
  ¬ occursIn "." (u +:+ X) →
  replaceFrom (X +:+ ".") new 0 ((u +:+ X) +:+ ".") = u +:+ new.
Proof.
  induction u as [|c u IH]; intros Hu.
  - rewrite !app_nil_l_s. pose proof (replaceFrom_match_dot X new "") as E.
    rewrite app_nil_r_s in E. rewrite E. cbn [replaceFrom].
    by rewrite app_nil_r_s.
  - rewrite !app_cons_s in *. apply no_dot_cons in Hu as [Hc Hu].
    rewrite replaceFrom_nomatch; [by rewrite IH|].
    destruct (String.prefix _ _) eqn:Hp; [|done].
    apply prefix_app in Hp as [post Hp]. rewrite !app_assoc_s in Hp.
    destruct (first_dot_unique (String c (u +:+ X)) X "" post) as [HWX _].
    { by apply no_dot_cons_inv. }
    { by eapply no_dot_app_r. }
    { change ("." +:+ "") with ".". by rewrite app_cons_s, app_assoc_s. }
    apply (f_equal String.length) in HWX.
    cbn [String.length] in HWX. rewrite app_length_s in HWX. lia.
Qed.

(** In a word, a name followed by a dot can only stand at the end. *)
Lemma occurs_at_end (q W : string) :
  ¬ occursIn "." q → ¬ occursIn "." W →
  occursIn (q +:+ ".") (W +:+ ".") → ∃ v, W = v +:+ q.
Proof.
  intros Hq HW (pre & post & H). revert W HW H.
  induction pre as [|d pre IH]; intros W HW H.
  - rewrite app_nil_l_s, app_assoc_s in H.
    destruct (first_dot_unique W q "" post HW Hq) as [-> _]; [done|].
    by exists "".
  - destruct W as [|c W]; rewrite !app_cons_s in H.
    + rewrite app_nil_l_s in H. injection H as <- H.
      apply (f_equal String.length) in H.
      rewrite !app_length_s in H. cbn [String.length] in H. lia.
    + injection H as <- H. apply no_dot_cons in HW as [_ HW].
      destruct (IH W HW H) as [v ->]. by exists (String c v).
Qed.

(** The last character of a string. *)
Lemma last_char (a b : string) (x y : ascii) :
  a +:+ String x "" = b +:+ String y "" → a = b ∧ x = y.
Proof.
  revert b. induction a as [|c a IH]; intros [|d b] H; push_app_in H.
  - by injection H as ->.
  - injection H as -> H. destruct b; by push_app_in H.
  - injection H as -> H. destruct a; by push_app_in H.
  - injection H as -> H. by destruct (IH b H) as [-> ->].
Qed.

(** After the last underscore, two equal strings agree. *)
Lemma last_underscore (a b x y : string) :
  ¬ occursIn "_" x → ¬ occursIn "_" y →
  a +:+ "_" +:+ x = b +:+ "_" +:+ y → x = y.
Proof.
  intros Hx Hy H.
  apply app_split in H as [(m & _ & H)|(m & _ & H)].
  - destruct m as [|c m]; push_app_in H; [by injection H|].
    injection H as _ ->. destruct Hx. by exists m, y.
  - destruct m as [|c m]; push_app_in H; [by injection H|].
    injection H as _ ->. destruct Hy. by exists m, x.
Qed.

Lemma occurs_char_cons (c x : ascii) (s : string) :
  occursIn (String c "") (String x s) → c = x ∨ occursIn (String c "") s.
Proof.
  intros ([|d p] & q & H); push_app_in H; injection H as -> ->.
  - by left.
  - right. by exists p, q.
Qed.

Lemma occurs_char_nil (c : ascii) : ¬ occursIn (String c "") "".
Proof. intros ([|d p] & q & H); by push_app_in H. Qed.

(** [contains] and [endsWith] decide what their names say. *)
Lemma contains_occursIn (s sub : string) :
  occursIn sub s → contains s sub = true.
Proof.
  intros (pre & post & ->). induction pre as [|c pre IH].
  - rewrite app_nil_l_s.
    assert (String.prefix sub (sub +:+ post) = true) as Hp.
    { apply prefix_app. by exists post. }
    destruct (sub +:+ post); cbn [contains]; by rewrite Hp.
  - rewrite app_cons_s. cbn [contains]. rewrite IH. apply orb_true_r.
Qed.

Lemma not_contains (s sub : string) :
  contains s sub = false → ¬ occursIn sub s.
Proof. intros H Ho. apply contains_occursIn in Ho. congruence. Qed.

Lemma endsWith_suffix (u suf : string) : endsWith (u +:+ suf) suf = true.
Proof.
  induction u as [|c u IH].
  - rewrite app_nil_l_s. destruct suf; cbn [endsWith]; by rewrite String.eqb_refl.
  - rewrite app_cons_s. cbn [endsWith]. rewrite IH. apply orb_true_r.
Qed.

Lemma not_endsWith (s suf u : string) :
  endsWith s suf = false → s ≠ u +:+ suf.
Proof. intros H ->. by rewrite endsWith_suffix in H. Qed.

End DotPatterns.
(** ** A run of replacements, block by block *)

Section Passes.
Import GoStrings pieces.

Lemma occurs_dot_pattern (X : string) : occursIn "." (X +:+ ".").
Proof. by exists X, "". Qed.

Lemma replaceFrom_tail (X new tail : string) :
  ¬ occursIn "." tail → replaceFrom (X +:+ ".") new 0 tail = tail.
Proof.
  intros H. apply replaceFrom_absent. intros Ho. apply H.
  eapply occursIn_trans; [apply occurs_dot_pattern|done].
Qed.

Lemma flatten_cons (B : string) (blocks : list string) :
  flatten (B :: blocks) = B +:+ flatten blocks.
Proof. reflexivity. Qed.

Lemma replaceFrom_blocks (X new : string) (blocks : list string)
    (rest : string) :
  ¬ occursIn "." X → Forall (λ B, ∃ C, B = C +:+ ".") blocks →
  replaceFrom (X +:+ ".") new 0 (flatten blocks +:+ rest)
  = flatten (replaceFrom (X +:+ ".") new 0 <$> blocks)
    +:+ replaceFrom (X +:+ ".") new 0 rest.
Proof.
  intros HX Hb. induction Hb as [|B blocks [C ->] _ IH]; [done|].
  rewrite fmap_cons, !flatten_cons, !app_assoc_s.
  rewrite <- (app_assoc_s C "."), replaceFrom_block by done.
  by rewrite IH.
Qed.

Lemma tracks_closed (r : string * string) (rules : list (string * string))
    (blocks results : list string) :
  Forall2 (tracks (r :: rules)) blocks results →
  Forall (λ B, ∃ C, B = C +:+ ".") blocks.
Proof. induction 1 as [|B B' ?? [HC _]]; by constructor. Qed.

(** The blocks of a text are rewritten one by one; what follows the last
    dot stays. *)
Lemma passes_tracks (rules : list (string * string))
    (blocks results : list string) (tail : string) :
  Forall (λ r, ¬ occursIn "." r.1) rules →
  Forall2 (tracks rules) blocks results → ¬ occursIn "." tail →
  passes rules (flatten blocks +:+ tail) = flatten results +:+ tail.
Proof.
  revert blocks. induction rules as [|[X N] rules IH];
    intros blocks Hr Ht Htail.
  - assert (results = blocks) as ->; [|done].
    induction Ht as [|B B' ?? HB]; [done|]. simpl in HB. congruence.
  - apply Forall_cons in Hr as [HX Hr]. simpl in HX.
    unfold passes. cbn [foldl fst snd]. fold (passes rules).
    rewrite ReplaceAll_dot.
    rewrite replaceFrom_blocks, replaceFrom_tail;
      [|done|done|by eapply tracks_closed].
    apply IH; [done| |done].
    apply Forall2_fmap_l. eapply Forall2_impl; [exact Ht|].
    by intros B B' [_ H].
Qed.

(** A block in which no pattern occurs stays as it is. *)
Lemma tracks_inert (rules : list (string * string)) (B : string) :
  (∃ C, B = C +:+ ".") →
  Forall (λ r, ¬ occursIn (r.1 +:+ ".") B) rules → tracks rules B B.
Proof.
  intros HC. induction rules as [|r rules IH]; [done|].
  intros [H1 H2]%Forall_cons. split; [done|].
  rewrite replaceFrom_absent by done. by apply IH.
Qed.

Lemma tracks_app (l1 l2 : list (string * string)) (B B1 B2 : string) :
  tracks l1 B B1 → tracks l2 B1 B2 → tracks (l1 ++ l2) B B2.
Proof.
  revert B. induction l1 as [|r l1 IH]; intros B; simpl.
  - by intros ->.
  - intros [HC H] H2. split; [done|]. by apply IH.
Qed.

(** A word that ends in the name of a rule has the name replaced. *)
Lemma tracks_hit (X N : string) (rules : list (string * string))
    (u B' : string) :
  ¬ occursIn "." (u +:+ X) →
  tracks rules ((u +:+ N) +:+ ".") B' →
  tracks ((X, N) :: rules) ((u +:+ X) +:+ ".") B'.
Proof.
  intros Hu H. split; [by eexists|]. cbn [fst snd].
  rewrite replaceFrom_hit by done. by rewrite <- app_assoc_s.
Qed.

End Passes.

(** ** The placeholders *)

Section PlaceholderShape.
Import GoStrings Ast transform pieces.

Lemma uint_plain (d : Decimal.uint) (c : ascii) :
  c = "_"%char ∨ c = "."%char →
  ¬ occursIn (String c "") (NilEmpty.string_of_uint d).
Proof.
  intros Hc. induction d; simpl; intros Ho;
    try (by apply occurs_char_nil in Ho);
    (apply occurs_char_cons in Ho as [->|Ho]; [by destruct Hc|done]).
Qed.

(** A number in decimal has neither an underscore nor a dot. *)
Lemma Itoa_plain (n : Z) (c : ascii) :
  c = "_"%char ∨ c = "."%char → ¬ occursIn (String c "") (Itoa n).
Proof.
  intros Hc. unfold Itoa.
  assert (∀ d, ¬ occursIn (String c "") (NilZero.string_of_uint d)) as Hu.
  { intros d. destruct d; try by apply uint_plain.
    simpl. intros [->|Ho%occurs_char_nil]%occurs_char_cons; [|done].
    by destruct Hc. }
  destruct (Z.to_int n) as [d|d]; simpl; [apply Hu|].
  intros [->|Ho]%occurs_char_cons; [by destruct Hc|by apply Hu in Ho].
Qed.

Lemma placeholder_no_dot (i : Z) : ¬ occursIn "." (placeholderOf i).
Proof.
  unfold placeholderOf. apply no_dot_app; [by apply not_contains|].
  apply no_dot_app; [|by apply not_contains].
  apply Itoa_plain. by right.
Qed.

Lemma placeholder_ends (i : Z) : occursIn "_." (placeholderOf i +:+ ".").
Proof.
  exists (placeholderPrefix +:+ Itoa i +:+ "_"), "".
  unfold placeholderOf. by rewrite !app_assoc_s.
Qed.

Lemma placeholder_shape (b : string) (n : Z) :
  b +:+ placeholderOf n
  = ((b +:+ "__GO_QUALIFIER_TEMP") +:+ "_" +:+ Itoa n) +:+ "__".
Proof. unfold placeholderOf. by rewrite !app_assoc_s. Qed.

(** No placeholder ends a word that ends in another placeholder. *)
Lemma placeholder_suffix (before v : string) (i j : Z) :
  before +:+ placeholderOf i = v +:+ placeholderOf j → i = j.
Proof.
  rewrite !placeholder_shape. intros H%append_inj_r.
  apply last_underscore in H; [by apply Itoa_inj| |];
    apply Itoa_plain; by left.
Qed.

(** No alias ends a word that ends in a placeholder. *)
Lemma alias_not_suffix (before v b : string) (i : Z) :
  b ≠ "" → (∀ u, b ≠ u +:+ "_") → before +:+ placeholderOf i ≠ v +:+ b.
Proof.
  intros Hne Hb H.
  assert (before +:+ placeholderOf i
          = (before +:+ placeholderPrefix +:+ Itoa i +:+ "_") +:+ "_") as E.
  { unfold placeholderOf. by rewrite !app_assoc_s. }
  rewrite E in H. apply app_split in H as [(m & _ & H)|(m & _ & H)].
  - destruct m as [|c m]; push_app_in H.
    + by apply (Hb "").
    + injection H as _ H. destruct m; [by push_app_in H|done].
  - by apply Hb in H.
Qed.

(** A reference that has its import path holds no underscore followed
    by a dot. *)
Lemma settled_block (before p : string) :
  ¬ occursIn "." before → String.prefix "." (p +:+ ".") = false →
  ¬ occursIn "_." (p +:+ ".") → ¬ occursIn "_." (before +:+ p +:+ ".").
Proof.
  intros Hb Hp Hin (pre & post & H).
  apply app_split in H as [(m & _ & H)|(m & Hm & H)].
  - apply Hin. by exists m, post.
  - destruct m as [|c m]; push_app_in H.
    + apply Hin. exists "", post. by rewrite <- H.
    + injection H as <- H. destruct m as [|d m]; push_app_in H.
      * assert (String.prefix "." (p +:+ ".") = true) as Hq; [|congruence].
        apply prefix_app. exists post. by rewrite <- H.
      * injection H as <- H. apply Hb. exists (pre +:+ "_"), m.
        by rewrite Hm, !app_assoc_s.
Qed.

(** *** The numbering loop *)

Lemma assign_temp_other (entries : list (string * string)) (i : Z)
    (tempMap finalMap : gmap string string) (a : string) :
  a ∉ entries.*1 →
  (assignPlaceholders entries i tempMap finalMap).1 !! a = tempMap !! a.
Proof.
  revert i tempMap finalMap.
  induction entries as [|[q p] entries IH]; intros i t f Hnin; simpl; [done|].
  simpl in Hnin. apply not_elem_of_cons in Hnin as [Hne Hnin].
  rewrite IH by done. by rewrite lookup_insert_ne.
Qed.

Lemma assign_final_other (entries : list (string * string)) (i j : Z)
    (tempMap finalMap : gmap string string) :
  j < i →
  (assignPlaceholders entries i tempMap finalMap).2 !! placeholderOf j
  = finalMap !! placeholderOf j.
Proof.
  revert i tempMap finalMap.
  induction entries as [|[q p] entries IH]; intros i t f Hlt; simpl; [done|].
  rewrite IH by lia. rewrite lookup_insert_ne; [done|].
  intros H%placeholderOf_inj. lia.
Qed.

(** An alias goes to a placeholder, and the placeholder to the alias's
    import path. *)
Lemma assign_round_trip (entries : list (string * string)) (i : Z)
    (tempMap finalMap : gmap string string) (a p : string) :
  NoDup entries.*1 → (a, p) ∈ entries →
  ∃ j, i <= j ∧
    (assignPlaceholders entries i tempMap finalMap).1 !! a
    = Some (placeholderOf j) ∧
    (assignPlaceholders entries i tempMap finalMap).2 !! placeholderOf j
    = Some p.
Proof.
  revert i tempMap finalMap.
  induction entries as [|[q0 p0] entries IH]; intros i t f Hnd Hin.
  - by apply elem_of_nil in Hin.
  - simpl in Hnd. apply NoDup_cons in Hnd as [Hq0 Hnd].
    apply elem_of_cons in Hin as [[= -> ->]|Hin].
    + exists i. split; [lia|]. simpl.
      rewrite assign_temp_other by done.
      rewrite assign_final_other by lia.
      by rewrite !lookup_insert_eq.
    + destruct (IH (i + 1) (<[q0 := placeholderOf i]> t)
                  (<[placeholderOf i := p0]> f) Hnd Hin) as (j & Hj & H1 & H2).
      exists j. split; [lia|done].
Qed.

(** The keys of [finalMap] are placeholders. *)
Lemma assign_final_keys (entries : list (string * string)) (i : Z)
    (tempMap finalMap : gmap string string) (k : string) :
  is_Some ((assignPlaceholders entries i tempMap finalMap).2 !! k) →
  (∃ j, k = placeholderOf j) ∨ is_Some (finalMap !! k).
Proof.
  revert i tempMap finalMap.
  induction entries as [|[q p] entries IH]; intros i t f; simpl; [by right|].
  intros [?|H]%IH; [by left|].
  apply lookup_insert_is_Some in H as [<-|[_ H]]; [left; by eexists|by right].
Qed.

End PlaceholderShape.
(** ** The rewrite of a text of references *)

Section Collision.
Import GoStrings Ast transform pieces.

Variable replacements : gmap string string.
Variable o : MapOrder.
Hypothesis Hadm : admissible replacements o.
Hypothesis Hplain : forallb plainEntry (map_to_list replacements) = true.

Local Abbreviation tempMap :=
  ((assignPlaceholders (rangeReplacements o) 0 ∅ ∅).1).
Local Abbreviation finalMap :=
  ((assignPlaceholders (rangeReplacements o) 0 ∅ ∅).2).
Local Abbreviation rules1 :=
  ((λ q, (q, mapGet tempMap q)) <$> sortedOldQualifiers o).
Local Abbreviation rules2 :=
  ((λ P, (P, mapGet finalMap P)) <$> sortedPlaceholders o).

Lemma elem_of_keys (m : gmap string string) (k : string) :
  k ∈ (map_to_list m).*1 ↔ is_Some (m !! k).
Proof.
  rewrite list_elem_of_fmap. split.
  - intros ([k' v] & -> & H%elem_of_map_to_list). by exists v.
  - intros [v H]. exists (k, v). by rewrite elem_of_map_to_list.
Qed.

Lemma adm_range : rangeReplacements o ≡ₚ map_to_list replacements.
Proof. by destruct Hadm. Qed.

Lemma adm_qs :
  sort_Slice_result longerFirst (map_to_list tempMap).*1 (sortedOldQualifiers o).
Proof.
  destruct Hadm as [_ H].
  by destruct (assignPlaceholders (rangeReplacements o) 0 ∅ ∅), H.
Qed.

Lemma adm_ps :
  sort_Slice_result longerFirst (map_to_list finalMap).*1 (sortedPlaceholders o).
Proof.
  destruct Hadm as [_ H].
  by destruct (assignPlaceholders (rangeReplacements o) 0 ∅ ∅), H.
Qed.

Lemma plain_alias (a : string) :
  is_Some (replacements !! a) →
  a ≠ "" ∧ ¬ occursIn "." a ∧ ∀ u, a ≠ u +:+ "_".
Proof.
  intros [p Hp]. rewrite forallb_forall in Hplain.
  specialize (Hplain (a, p)). unfold plainEntry, plainAlias in Hplain.
  rewrite !andb_true_iff, !negb_true_iff in Hplain.
  destruct Hplain as [[[H1 H2] H3] _].
  { by apply list_elem_of_In, elem_of_map_to_list. }
  split; [by apply String.eqb_neq|]. split; [by apply not_contains|].
  intros u. by apply not_endsWith.
Qed.

Lemma plain_path (a p : string) :
  replacements !! a = Some p →
  String.prefix "." (p +:+ ".") = false ∧ ¬ occursIn "_." (p +:+ ".").
Proof.
  intros Hp. rewrite forallb_forall in Hplain.
  specialize (Hplain (a, p)). unfold plainEntry, plainPath in Hplain.
  rewrite !andb_true_iff, !negb_true_iff in Hplain.
  destruct Hplain as [_ [H1 H2]].
  { by apply list_elem_of_In, elem_of_map_to_list. }
  split; [done|by apply not_contains].
Qed.

(** The aliases handed to the first sort are those of the map. *)
Lemma qs_keys (q : string) :
  q ∈ sortedOldQualifiers o ↔ is_Some (replacements !! q).
Proof.
  destruct adm_qs as [-> _]. rewrite elem_of_keys, <- elem_of_dom.
  rewrite assignPlaceholders_dom, dom_empty_L, elem_of_union.
  rewrite elem_of_list_to_set, adm_range, elem_of_keys. set_solver.
Qed.

Lemma round_trip (a p : string) :
  replacements !! a = Some p →
  ∃ j, tempMap !! a = Some (placeholderOf j) ∧
       finalMap !! placeholderOf j = Some p.
Proof.
  intros Hp.
  destruct (assign_round_trip (rangeReplacements o) 0 ∅ ∅ a p)
    as (j & _ & H1 & H2).
  - rewrite adm_range. apply NoDup_fst_map_to_list.
  - rewrite adm_range. by apply elem_of_map_to_list.
  - by exists j.
Qed.

Lemma ps_placeholders (P : string) :
  P ∈ sortedPlaceholders o → ∃ j, P = placeholderOf j.
Proof.
  destruct adm_ps as [-> _]. rewrite elem_of_keys.
  intros [?|H]%assign_final_keys; [done|].
  rewrite lookup_empty in H. by destruct H.
Qed.

Lemma ps_has (P : string) :
  is_Some (finalMap !! P) → P ∈ sortedPlaceholders o.
Proof. destruct adm_ps as [-> _]. by rewrite elem_of_keys. Qed.

(** An alias sorted before another is not the shorter one. *)
Lemma qs_sorted (l1 l2 : list string) (a q : string) :
  sortedOldQualifiers o = l1 ++ a :: l2 → q ∈ l1 →
  (String.length a ≤ String.length q)%nat.
Proof.
  intros Hqs [i Hi]%list_elem_of_lookup. destruct adm_qs as [_ Hsorted].
  pose proof (lookup_lt_Some _ _ _ Hi) as Hlt.
  assert (¬ longerFirst a q) as Hn; [|unfold longerFirst in Hn; lia].
  apply (Hsorted i (length l1)); [done| |].
  - by rewrite Hqs, lookup_app_l.
  - rewrite Hqs. by apply list_lookup_middle.
Qed.

Lemma substitute_passes (s : string) :
  size replacements ≠ 0%nat →
  substitute o replacements s = passes (rules1 ++ rules2) s.
Proof.
  intros Hne. unfold substitute. rewrite decide_False by done.
  destruct (assignPlaceholders (rangeReplacements o) 0 ∅ ∅) as [t f].
  unfold passes, toFullPaths, toPlaceholders.
  by rewrite foldl_app, !foldl_fmap.
Qed.

Lemma rules_plain : Forall (λ r, ¬ occursIn "." r.1) (rules1 ++ rules2).
Proof.
  apply Forall_app. split; apply Forall_fmap, Forall_forall; intros x Hx; simpl.
  - apply qs_keys in Hx. by apply plain_alias.
  - apply ps_placeholders in Hx as [j ->]. apply placeholder_no_dot.
Qed.

(** A piece without a reference goes through both phases unchanged. *)
Lemma other_tracks (body : string) :
  wellFormed replacements (Other body) = true →
  tracks (rules1 ++ rules2) (body +:+ ".") (body +:+ ".").
Proof.
  intros [H1 H2%negb_true_iff%not_contains]%andb_true_iff.
  rewrite forallb_forall in H1.
  apply tracks_inert; [by eexists|].
  apply Forall_app. split; apply Forall_fmap, Forall_forall; intros x Hx; simpl.
  - apply not_contains, negb_true_iff, H1, list_elem_of_In, elem_of_keys.
    by apply qs_keys.
  - apply ps_placeholders in Hx as [j ->]. intros Ho. apply H2.
    eapply occursIn_trans; [apply placeholder_ends|done].
Qed.

(** Two ends of one word that are equally long are equal. *)
Lemma same_end (u v a b : string) :
  u +:+ a = v +:+ b → String.length a = String.length b → a = b.
Proof.
  intros H Hlen. apply app_split in H as [(m & _ & ->)|(m & _ & ->)];
    rewrite app_length_s in Hlen; destruct m; try done;
    cbn [String.length] in Hlen; lia.
Qed.

(** A reference goes to its placeholder in the first phase and to its
    import path in the second. *)
Lemma ref_tracks (before alias : string) :
  wellFormed replacements (Ref before alias) = true →
  tracks (rules1 ++ rules2) (before +:+ alias +:+ ".")
         (before +:+ mapGet replacements alias +:+ ".").
Proof.
  intros [[[p Hp]%bool_decide_eq_true Hdot%negb_true_iff%not_contains]
            %andb_true_iff Hlong]%andb_true_iff.
  rewrite forallb_forall in Hlong.
  destruct (round_trip alias p Hp) as (j & Ht & Hf).
  assert (alias ∈ sortedOldQualifiers o) as Hin1 by (by apply qs_keys).
  assert (placeholderOf j ∈ sortedPlaceholders o) as Hin2 by (by apply ps_has).
  pose proof ps_placeholders as Hps. pose proof qs_keys as Hqs.
  pose proof qs_sorted as Hsorted.
  apply list_elem_of_split_l in Hin1 as (l1 & l2 & E1 & Hl1).
  apply list_elem_of_split_l in Hin2 as (k1 & k2 & E2 & Hk1).
  rewrite E1, E2 in *. rewrite !fmap_app, !fmap_cons.
  replace (mapGet tempMap alias) with (placeholderOf j)
    by (unfold mapGet; by rewrite Ht).
  replace (mapGet finalMap (placeholderOf j)) with p
    by (unfold mapGet; by rewrite Hf).
  replace (mapGet replacements alias) with p
    by (unfold mapGet; by rewrite Hp).
  pose proof (no_dot_app_l _ _ Hdot) as Hbefore.
  assert (¬ occursIn "." (before +:+ placeholderOf j)) as Hdot'.
  { apply no_dot_app; [done|apply placeholder_no_dot]. }
  destruct (plain_path alias p Hp) as [Hp1 Hp2].
  rewrite <- app_assoc. rewrite <- (app_assoc_s before alias ".").
  eapply tracks_app.
  { apply tracks_inert; [by eexists|].
    apply Forall_fmap, Forall_forall. intros q Hq. simpl. intros Ho.
    assert (q ∈ l1 ++ alias :: l2) as Hk
      by (rewrite elem_of_app, elem_of_cons; auto).
    apply Hqs in Hk.
    apply occurs_at_end in Ho as [v Ho]; [|by apply plain_alias|done].
    assert ((String.length q <=? String.length alias)%nat = true) as Hle.
    { assert (endsWith (before +:+ alias) q = true) as He.
      { rewrite Ho. apply endsWith_suffix. }
      specialize (Hlong q). rewrite He in Hlong. apply Hlong.
      by apply list_elem_of_In, elem_of_keys. }
    apply Nat.leb_le in Hle.
    pose proof (Hsorted l1 l2 alias q eq_refl Hq).
    apply same_end in Ho; [|lia]. by subst. }
  simpl app. apply tracks_hit; [done|].
  eapply tracks_app.
  { apply tracks_inert; [by eexists|].
    apply Forall_fmap, Forall_forall. intros q Hq. simpl. intros Ho.
    assert (q ∈ l1 ++ alias :: l2) as Hk
      by (rewrite elem_of_app, elem_of_cons; auto).
    apply Hqs in Hk. destruct (plain_alias q Hk) as (Hne & Hqd & Hend).
    apply occurs_at_end in Ho as [v Ho]; [|done|done].
    by apply alias_not_suffix in Ho. }
  eapply tracks_app.
  { apply tracks_inert; [by eexists|].
    apply Forall_fmap, Forall_forall. intros P HP. simpl. intros Ho.
    destruct (Hps P) as [j' ->];
      [rewrite elem_of_app, elem_of_cons; auto|].
    apply occurs_at_end in Ho as [v Ho]; [|apply placeholder_no_dot|done].
    apply placeholder_suffix in Ho. by subst. }
  apply tracks_hit; [done|]. rewrite app_assoc_s.
  apply tracks_inert; [by exists (before +:+ p); rewrite app_assoc_s|].
  apply Forall_fmap, Forall_forall. intros P HP. simpl. intros Ho.
  destruct (Hps P) as [j' ->];
      [rewrite elem_of_app, elem_of_cons; auto|].
  apply (settled_block before p); [done|done|done|].
  eapply occursIn_trans; [apply placeholder_ends|done].
Qed.

Lemma piece_tracks (p : Piece) :
  wellFormed replacements p = true →
  tracks (rules1 ++ rules2) (textOf p) (rewritten replacements p).
Proof. destruct p; [apply ref_tracks|apply other_tracks]. Qed.

(** With no alias to replace, a well-formed text has no reference. *)
Lemma pieces_unchanged (ps : list Piece) :
  replacements = ∅ → forallb (wellFormed replacements) ps = true →
  rewritten replacements <$> ps = textOf <$> ps.
Proof.
  intros ->. induction ps as [|[before alias|body] ps IH]; [done| |];
    cbn [forallb]; intros [H1 H2]%andb_true_iff;
    rewrite !fmap_cons, IH by done; [|done].
  unfold wellFormed in H1. rewrite lookup_empty in H1.
  rewrite !andb_true_iff, bool_decide_eq_true in H1.
  destruct H1 as [[[? H] _] _]. done.
Qed.

(** Every reference of a well-formed text is rewritten to the import path
    of its alias; the rest of the text stays. *)
Lemma substitute_pieces (ps : list Piece) (tail : string) :
  forallb (wellFormed replacements) ps = true →
  contains tail "." = false →
  substitute o replacements (flatten (textOf <$> ps) +:+ tail)
  = flatten (rewritten replacements <$> ps) +:+ tail.
Proof.
  intros Hps Htail%not_contains.
  destruct (decide (size replacements = 0%nat)) as [He|Hne].
  - unfold substitute. rewrite decide_True by done.
    apply map_size_empty_inv in He. by rewrite pieces_unchanged.
  - rewrite substitute_passes by done.
    apply passes_tracks; [apply rules_plain| |done].
    apply Forall2_fmap, Forall_Forall2_diag, Forall_forall.
    intros p Hp. apply piece_tracks.
    rewrite forallb_forall in Hps. by apply Hps, list_elem_of_In.
Qed.

End Collision.

Lemma order_under_admissible :
  transform.admissible examples.under_map examples.order_under.
Proof.
  unfold transform.admissible. simpl. split.
  - vm_compute. try reflexivity; apply perm_swap.
  - split; (split; [vm_compute; try reflexivity; apply perm_swap|]).
    + intros [|[|i]] [|[|j]] x y Hij Hx Hy; simpl in *; simplify_eq;
        try lia; unfold transform.longerFirst; simpl; lia.
    + intros [|[|i]] [|[|j]] x y Hij Hx Hy; simpl in *; simplify_eq;
        try lia; unfold transform.longerFirst; vm_compute; lia.
Qed.

(** With the aliases [__] and [__x], the shorter a prefix of the longer,
    the text [__x.F(__.G)] does not come out as [p/l.F(p/s.G)]: the
    placeholder that stands for [__x] ends in [__], the replacement of
    [__.] takes that end for the shorter alias, and the reference to
    [p/l] is lost. *)
Lemma C2_shorter_alias_preempts_longer :
  String.prefix "__" "__x" = true ∧
  transform.discoverReplacements examples.under_call examples.under_info
  = examples.under_map ∧
  transform.admissible examples.under_map examples.order_under ∧
  transform.ApplyQualifierReplacements (λ _, examples.order_under)
    "__x.F(__.G)" (Some examples.under_call) (Some examples.under_info)
  = "__GO_QUALIFIER_TEMP_0p/s.F(p/s.G)".
Proof.
  split; [reflexivity|]. split; [vm_compute; reflexivity|].
  split; [apply order_under_admissible|vm_compute; reflexivity].
Qed.

(** C2.  For the replacement map [{a -> pkg/a, ab -> pkg/ab}] and the text
    [ab.Foo(a.Bar)] the rewrite returns [pkg/ab.Foo(pkg/a.Bar)], in whatever
    order Go walks the maps and however [sort.Slice] arranges elements of
    equal length.  In general, take a text cut at its dots into pieces and
    what follows the last dot.  If no alias of the discovered map is
    empty, has a dot or ends in an underscore, no import path followed by
    a dot starts with a dot or has an underscore before a dot, every
    reference [before alias.] names the longest alias that ends at its
    dot, and every other piece [body.] holds no alias followed by a dot
    and no underscore followed by a dot, then the rewrite returns the text
    with each reference's alias replaced by the import path of that very
    alias, and everything else as it was: no shorter alias takes the place
    of a longer one. *)
Theorem C2_references_go_to_their_own_paths :
  (∀ o, transform.admissible examples.a_ab o →
        transform.substitute o examples.a_ab "ab.Foo(a.Bar)"
        = "pkg/ab.Foo(pkg/a.Bar)") ∧
  (∀ (order : gmap string string → transform.MapOrder)
     (node : Ast.Node) (info : Ast.Info)
     (ps : list pieces.Piece) (tail : string),
      transform.admissible (transform.discoverReplacements node info)
        (order (transform.discoverReplacements node info)) →
      forallb pieces.plainEntry
        (map_to_list (transform.discoverReplacements node info)) = true →
      forallb (pieces.wellFormed (transform.discoverReplacements node info)) ps
      = true →
      pieces.contains tail "." = false →
      transform.ApplyQualifierReplacements order
        (pieces.flatten (pieces.textOf <$> ps) +:+ tail)
        (Some node) (Some info)
      = pieces.flatten
          (pieces.rewritten (transform.discoverReplacements node info) <$> ps)
        +:+ tail).
Proof.
  split.
  - intros o Ho.
    change "ab.Foo(a.Bar)"
      with (pieces.flatten (pieces.textOf <$>
              [pieces.Ref "" "ab"; pieces.Ref "Foo(" "a"]) +:+ "Bar)").
    replace "pkg/ab.Foo(pkg/a.Bar)"
      with (pieces.flatten (pieces.rewritten examples.a_ab <$>
              [pieces.Ref "" "ab"; pieces.Ref "Foo(" "a"]) +:+ "Bar)")
      by (vm_compute; reflexivity).
    apply substitute_pieces; [done|vm_compute; reflexivity..].
  - intros order node info ps tail Hadm Hplain Hps Htail.
    by apply substitute_pieces.
Qed.

(** The text [ab.Foo(a.Bar)] is the references [ab.] and [Foo(a.] and the
    rest [Bar)]. *)
Lemma C2_references_go_to_their_own_paths_witness :
  transform.ApplyQualifierReplacements (λ _, examples.order_a_ab)
    "ab.Foo(a.Bar)" (Some examples.call) (Some examples.info)
  = "pkg/ab.Foo(pkg/a.Bar)".
Proof.
  destruct C2_references_go_to_their_own_paths as [_ Hgen].
  pose proof (Hgen (λ _, examples.order_a_ab) examples.call examples.info
                [pieces.Ref "" "ab"; pieces.Ref "Foo(" "a"] "Bar)") as H.
  rewrite discover_call in H.
  apply H; [apply order_a_ab_admissible|vm_compute; reflexivity..].
Defined.

(** ** Reasoning about runs *)

Section Runs.
Import GoStrings Ast runtime observe.

Lemma post_ret {A} (a : A) (w : World) (Q : A → World → Prop) :
  Q a w → post (mret a) w Q.
Proof. intros H. by exists a, w. Qed.

Lemma post_bind {A B} (m : M A) (f : A → M B) (w : World)
    (Q : B → World → Prop) :
  post m w (λ a w', post (f a) w' Q) → post (m ≫= f) w Q.
Proof.
  intros (a & w' & Hm & b & w'' & Hf & HQ). exists b, w''.
  split; [|done]. unfold mbind, M_bind. by rewrite Hm.
Qed.

Lemma post_mono {A} (m : M A) (w : World) (Q Q' : A → World → Prop) :
  post m w Q → (∀ a w', Q a w' → Q' a w') → post m w Q'.
Proof. intros (a & w' & Hm & HQ) H. exists a, w'. auto. Qed.

Lemma post_logPrintf (e : LogEvent) (w : World) (Q : unit → World → Prop) :
  Q tt (mkWorld (heap w) (logged w ++ [e]) (reads w)) → post (logPrintf e) w Q.
Proof. intros H. by eexists _, _. Qed.

Lemma post_newMap (init : gmap string Value) (w : World)
    (Q : nat → World → Prop) :
  Q (fresh (dom (heap w)))
    (mkWorld (<[fresh (dom (heap w)) := init]> (heap w)) (logged w) (reads w)) →
  post (newMap init) w Q.
Proof. intros H. by eexists _, _. Qed.

Lemma post_mapStore (r : nat) (k : string) (v : Value)
    (table : gmap string Value) (w : World) (Q : unit → World → Prop) :
  heap w !! r = Some table →
  Q tt (mkWorld (<[r := <[k := v]> table]> (heap w)) (logged w) (reads w)) →
  post (mapStore r k v) w Q.
Proof.
  intros Hr H. eexists _, _. split; [|done]. unfold mapStore. by rewrite Hr.
Qed.

Lemma post_mapEntries (r : nat) (table : gmap string Value) (w : World)
    (Q : list (string * Value) → World → Prop) :
  heap w !! r = Some table → Q (map_to_list table) w → post (mapEntries r) w Q.
Proof.
  intros Hr H. eexists _, _. split; [|done]. unfold mapEntries. by rewrite Hr.
Qed.

Lemma post_deref {A} (a : A) (w : World) (Q : A → World → Prop) :
  Q a w → post (deref (Some a)) w Q.
Proof. intros H. by exists a, w. Qed.

Lemma post_ReadFile (ReadFile : nat → string → option string) (path : string)
    (w : World) (Q : option string → World → Prop) :
  Q (ReadFile (List.length (reads w)) path)
    (mkWorld (heap w) (logged w) (reads w ++ [path])) →
  post (parser.ioutil_ReadFile ReadFile path) w Q.
Proof. intros H. by eexists _, _. Qed.

(** A loop whose body keeps an invariant keeps it. *)
Lemma post_forRange {A S} (l : list A) (body : S → A → M S)
    (I : list A → S → World → Prop) (s : S) (w : World) :
  I l s w →
  (∀ a rest s w, I (a :: rest) s w → post (body s a) w (I rest)) →
  post (forRange l body s) w (I []).
Proof.
  intros HI Hbody. revert s w HI.
  induction l as [|a l IH]; intros s w HI; simpl.
  - by apply post_ret.
  - apply post_bind. eapply post_mono; [by apply Hbody|].
    intros s' w' HI'. by apply IH.
Qed.

Lemma frame_refl (w : World) : frame w w.
Proof. by intros r t. Qed.

Lemma frame_trans (w1 w2 w3 : World) : frame w1 w2 → frame w2 w3 → frame w1 w3.
Proof. intros H12 H23 r t H. auto. Qed.

Lemma frame_fresh (h : gmap nat (gmap string Value)) (table : gmap string Value)
    (l l' : list LogEvent) (rs rs' : list string) :
  frame (mkWorld h l rs) (mkWorld (<[fresh (dom h) := table]> h) l' rs').
Proof.
  intros r t Hr. simpl in *. rewrite lookup_insert_ne; [done|].
  intros <-. apply (is_fresh (dom h)). apply elem_of_dom. by eexists.
Qed.

Lemma fresh_lookup (h : gmap nat (gmap string Value)) :
  h !! fresh (dom h) = None.
Proof. apply not_elem_of_dom, is_fresh. Qed.

(** Copying the entries of a map into an empty map yields the map. *)
Lemma copy_entries (r : nat) (entries : list (string * Value))
    (table : gmap string Value) (h : gmap nat (gmap string Value))
    (l : list LogEvent) (rs : list string) (Q : unit → World → Prop) :
  Q tt (mkWorld (<[r := foldl (λ t kv, <[kv.1 := kv.2]> t) table entries]> h)
                l rs) →
  post (forRange entries (λ _ kv, mapStore r kv.1 kv.2) tt)
       (mkWorld (<[r := table]> h) l rs) Q.
Proof.
  revert table. induction entries as [|[k v] entries IH]; intros table HQ; simpl.
  - by apply post_ret.
  - apply post_bind. eapply post_mapStore; [apply lookup_insert_eq|].
    simpl. rewrite insert_insert_eq. by apply IH.
Qed.

Lemma foldl_insert_foldr (l : list (string * Value)) (t : gmap string Value) :
  foldl (λ t kv, <[kv.1 := kv.2]> t) t l
  = foldr (λ kv t, <[kv.1 := kv.2]> t) t (reverse l).
Proof.
  revert t. induction l as [|kv l IH]; intros t; simpl; [done|].
  by rewrite IH, reverse_cons, foldr_app.
Qed.

Lemma foldl_insert_map_to_list (table : gmap string Value) :
  foldl (λ t kv, <[kv.1 := kv.2]> t) ∅ (map_to_list table) = table.
Proof.
  rewrite foldl_insert_foldr.
  transitivity (list_to_map (reverse (map_to_list table)) : gmap string Value).
  { unfold list_to_map. induction (reverse (map_to_list table)) as [|[k v] l IH];
      simpl; [done|]. by rewrite IH. }
  rewrite <- (list_to_map_to_list table) at 2.
  apply list_to_map_proper.
  - rewrite fmap_reverse, reverse_Permutation. apply NoDup_fst_map_to_list.
  - apply reverse_Permutation.
Qed.

Lemma sum_list_app (l1 l2 : list nat) :
  sum_list (l1 ++ l2) = (sum_list l1 + sum_list l2)%nat.
Proof. induction l1 as [|n l1 IH]; simpl; [done|]. rewrite IH. lia. Qed.

End Runs.

(** ** The Declaration Extractor, function by function *)

Section ExtractorFacts.
Import GoStrings Ast runtime observe.

Variable ReadFile : nat → string → option string.
Variable Separator : string.
Variable Fprint : Expr → option string.
Variable TypeVerb : Expr → string.
Variable order : gmap string string → transform.MapOrder.

Lemma post_mapStore_ins (r : nat) (k : string) (v : Value)
    (table : gmap string Value) (h : gmap nat (gmap string Value))
    (l : list LogEvent) (rs : list string) (Q : unit → World → Prop) :
  Q tt (mkWorld (<[r := <[k := v]> table]> h) l rs) →
  post (mapStore r k v) (mkWorld (<[r := table]> h) l rs) Q.
Proof.
  intros HQ. eapply post_mapStore; [apply lookup_insert_eq|].
  simpl. by rewrite insert_insert_eq.
Qed.

(** The offsets test lets through exactly the spans Go can slice. *)
Lemma valid_offsets_slice (content : string) (lo hi : Z) :
  ¬ parser.invalidOffsets lo hi content ↔ 0 <= lo ∧ lo <= hi ∧ hi <= len content.
Proof. unfold parser.invalidOffsets. lia. Qed.

Lemma slice_valid (content : string) (lo hi : Z) :
  ¬ parser.invalidOffsets lo hi content →
  slice content lo hi
  = Some (substring (Z.to_nat lo) (Z.to_nat (hi - lo)) content).
Proof.
  intros H%valid_offsets_slice. unfold slice. by rewrite decide_True.
Qed.

Lemma slice_invalid (content : string) (lo hi : Z) :
  parser.invalidOffsets lo hi content → slice content lo hi = None.
Proof.
  intros H. unfold slice. rewrite decide_False; [done|].
  by intros ?%valid_offsets_slice.
Qed.

(** [specChunk]: one read, no change to the heap; a chunk exactly when the
    read succeeds and the span is valid, sliced from that very read. *)
Lemma specChunk_post (spec : Spec) (pkg : Package) (md : nat) (path : string)
    (sp ep : Position) (name : string) (w : World) :
  post (parser.specChunk ReadFile order spec pkg md path sp ep name) w
    (λ co w',
       ∃ ev, w' = mkWorld (heap w) (logged w ++ ev) (reads w ++ [path]) ∧
       match co with
       | Some c =>
           ∃ content code,
             ReadFile (List.length (reads w)) path = Some content ∧
             ¬ parser.invalidOffsets (Offset sp) (Offset ep) content ∧
             slice content (Offset sp) (Offset ep) = Some code ∧
             c = mkChromaDocument
                   (parser.Sprintf_ID path (Line sp) (Line ep) name)
                   (transform.ApplyQualifierReplacements order code (Some (NSpec spec)) (TypesInfo pkg)) md ∧
             ev = []
       | None =>
           (ReadFile (List.length (reads w)) path = None ∧
            ev = [LogErrorReadingFile path]) ∨
           (∃ content,
              ReadFile (List.length (reads w)) path = Some content ∧
              parser.invalidOffsets (Offset sp) (Offset ep) content ∧
              ev = [LogInvalidSpecOffsets path (Line sp) (Offset sp) (Offset ep)
                      (len content)])
       end).
Proof.
  unfold parser.specChunk. apply post_bind, post_ReadFile.
  destruct (ReadFile (List.length (reads w)) path) as [content|] eqn:Hread.
  - case_decide as Hinv.
    + apply post_bind, post_logPrintf, post_ret. simpl.
      eexists. split; [done|]. right. by exists content.
    + apply post_bind. unfold parser.sliceString.
      rewrite (slice_valid _ _ _ Hinv). apply post_deref, post_ret. simpl.
      exists []. rewrite app_nil_r. split; [done|].
      exists content. eexists. split; [done|]. split; [done|].
      split; [by apply slice_valid|]. done.
  - apply post_bind, post_logPrintf, post_ret. simpl.
    eexists. split; [done|]. by left.
Qed.

(** [processFunctionDeclaration]: no read, no log line, one chunk whose
    metadata is the map handed in, updated in place. *)
Lemma processFunctionDeclaration_post (funcDecl : FuncDecl) (pkg : Package)
    (info : Info) (code : string) (md : nat) (path : string)
    (sp ep : Position) (table : gmap string Value)
    (h : gmap nat (gmap string Value)) (l : list LogEvent) (rs : list string) :
  TypesInfo pkg = Some info →
  post (parser.processFunctionDeclaration Fprint TypeVerb order funcDecl pkg
          code md path sp ep)
       (mkWorld (<[md := table]> h) l rs)
    (λ co w',
       co = Some (mkChromaDocument
                    (parser.Sprintf_ID path (Line sp) (Line ep)
                       (Name (fd_Name funcDecl)))
                    (transform.ApplyQualifierReplacements order code (Some (NDecl (DFunc funcDecl))) (Some info))
                    md) ∧
       w' = mkWorld (<[md := functionMetadata Fprint TypeVerb info funcDecl
                               table]> h) l rs).
Proof.
  intros Hinfo. unfold parser.processFunctionDeclaration, functionMetadata.
  rewrite Hinfo.
  apply post_bind, post_mapStore_ins, post_bind, post_mapStore_ins, post_bind.
  destruct (fd_Recv funcDecl) as [[|recv0 recvs]|].
  - apply post_ret, post_ret. done.
  - apply post_bind, post_mapStore_ins, post_bind.
    unfold parser.GetTypeString. apply post_bind, post_deref, post_ret.
    apply post_bind, post_mapStore_ins, post_mapStore_ins, post_ret. done.
  - apply post_ret, post_ret. done.
Qed.

Lemma not_per_binding (k : string) :
  k ∉ perBindingKeys →
  k ≠ "entity_name" ∧ k ≠ "type" ∧ k ≠ "type_category".
Proof.
  unfold perBindingKeys. rewrite !not_elem_of_cons. tauto.
Qed.

(** [processSpecification]: the binding gets a map of its own at a fresh
    address, equal to the base map outside the per-binding keys; no map
    that existed before is touched. *)
Lemma processSpecification_post (spec : Spec) (pkg : Package) (info : Info)
    (base : nat) (path : string) (sp ep : Position)
    (tb : gmap string Value) (h : gmap nat (gmap string Value))
    (l : list LogEvent) (rs : list string) :
  TypesInfo pkg = Some info →
  h !! base = Some tb →
  post (parser.processSpecification ReadFile Fprint TypeVerb order spec pkg
          base path sp ep)
       (mkWorld h l rs)
    (λ co w',
       ∃ tc ev,
         w' = mkWorld (<[fresh (dom h) := tc]> h) (l ++ ev)
                      (rs ++ replicate (specReads spec) path) ∧
         (∀ k, k ∉ perBindingKeys → tc !! k = tb !! k) ∧
         match co with
         | Some c =>
             Metadata c = fresh (dom h) ∧
             tc !! "entity_name" = Some (VString (entityNameOf spec)) ∧
             ChunkID c = parser.Sprintf_ID path (Line sp) (Line ep)
                           (entityNameOf spec) ∧
             ∃ content code,
               ReadFile (List.length rs) path = Some content ∧
               ¬ parser.invalidOffsets (Offset sp) (Offset ep) content ∧
               slice content (Offset sp) (Offset ep) = Some code ∧
               Document c = transform.ApplyQualifierReplacements order code (Some (NSpec spec)) (TypesInfo pkg)
         | None => True
         end).
Proof.
  intros Hinfo Hbase. unfold parser.processSpecification.
  apply post_bind, post_newMap. simpl.
  assert (base ≠ fresh (dom h)) as Hne.
  { intros ->. by rewrite fresh_lookup in Hbase. }
  apply post_bind. eapply post_mapEntries.
  { simpl. by rewrite lookup_insert_ne. }
  apply post_bind, copy_entries. rewrite foldl_insert_map_to_list.
  destruct spec as [p e name type|p e names type values|p e name ipath].
  - unfold parser.processTypeSpecification.
    apply post_bind, post_mapStore_ins, post_bind, post_mapStore_ins.
    eapply post_mono; [apply specChunk_post|].
    intros co w' (ev & -> & Hco). simpl.
    eexists _, ev. split; [done|]. split.
    { intros k (? & ? & ?)%not_per_binding. by rewrite !lookup_insert_ne. }
    destruct co as [c|]; [|done].
    destruct Hco as (content & code & ? & ? & ? & -> & _). simpl.
    split; [done|]. split.
    { rewrite lookup_insert_ne; [|done]. apply lookup_insert_eq. }
    split; [done|]. by exists content, code.
  - unfold parser.processValueSpecification.
    apply post_bind, post_mapStore_ins, post_bind.
    assert (∀ Q : unit → World → Prop,
              (∀ t', (∀ k, k ∉ perBindingKeys → t' !! k = tb !! k) →
                     t' !! "entity_name"
                     = Some (VString (GoStrings.Join (map Name names) ", ")) →
                     Q tt (mkWorld (<[fresh (dom h) := t']> h) l rs)) →
              post
                (match type, values with
                 | Some ty, _ =>
                     t ← parser.GetTypeString Fprint TypeVerb ty (TypesInfo pkg);
                     mapStore (fresh (dom h)) "type" (VString t)
                 | None, v0 :: _ =>
                     info ← deref (TypesInfo pkg);
                     match TypeOf info v0 with
                     | Some tv => mapStore (fresh (dom h)) "type" (VString tv)
                     | None => mret tt
                     end
                 | None, [] => mret tt
                 end)
                (mkWorld
                   (<[fresh (dom h) :=
                        <["entity_name" :=
                            VString (GoStrings.Join (map Name names) ", ")]> tb]> h)
                   l rs) Q) as Htype.
    { intros Q HQ. rewrite Hinfo.
      assert (∀ v, (∀ k, k ∉ perBindingKeys →
                  (<["type" := v]> (<["entity_name" :=
                       VString (GoStrings.Join (map Name names) ", ")]> tb)) !! k
                  = tb !! k)) as Hagree.
      { intros v k (? & ? & ?)%not_per_binding. by rewrite !lookup_insert_ne. }
      assert (∀ k, k ∉ perBindingKeys →
                  (<["entity_name" :=
                       VString (GoStrings.Join (map Name names) ", ")]> tb) !! k
                  = tb !! k) as Hagree0.
      { intros k (? & ? & ?)%not_per_binding. by rewrite !lookup_insert_ne. }
      destruct type as [ty|]; [|destruct values as [|v0 values]].
      - unfold parser.GetTypeString.
        apply post_bind, post_bind, post_deref, post_ret, post_mapStore_ins.
        apply HQ; [apply Hagree|].
        rewrite lookup_insert_ne; [|done]. apply lookup_insert_eq.
      - apply post_ret, HQ; [done|]. apply lookup_insert_eq.
      - apply post_bind, post_deref.
        destruct (TypeOf info v0) as [tv|].
        + apply post_mapStore_ins, HQ; [apply Hagree|].
          rewrite lookup_insert_ne; [|done]. apply lookup_insert_eq.
        + apply post_ret, HQ; [done|]. apply lookup_insert_eq. }
    apply Htype. intros t' Hagree Hname.
    eapply post_mono; [apply specChunk_post|].
    intros co w' (ev & -> & Hco). simpl.
    eexists _, ev. split; [done|]. split; [done|].
    destruct co as [c|]; [|done].
    destruct Hco as (content & code & ? & ? & ? & -> & _). simpl.
    split; [done|]. split; [done|]. split; [done|]. by exists content, code.
  - apply post_ret. exists tb, []. simpl. rewrite !app_nil_r. done.
Qed.

Lemma bindingChunk_mono (pkg : Package) (fset : FileSet) (path : string)
    (tb : gmap string Value) (n : nat) (S1 S2 : list Spec) (w w' : World)
    (c : ChromaDocument) :
  bindingChunk ReadFile order pkg fset path tb n S1 w c →
  frame w w' → S1 ⊆ S2 →
  bindingChunk ReadFile order pkg fset path tb n S2 w' c.
Proof.
  intros (tc & spec & Htc & Hin & Hrest) Hframe Hsub.
  exists tc, spec. split; [by apply Hframe|]. split; [by apply Hsub|]. done.
Qed.

(** The loop of [processGeneralDeclaration]. *)
Lemma specs_loop_post (Specs : list Spec) (pkg : Package) (info : Info)
    (fset : FileSet) (md : nat) (path : string) (tb : gmap string Value)
    (w0 : World) :
  TypesInfo pkg = Some info → Fset pkg = Some fset →
  heap w0 !! md = Some tb →
  post (forRange Specs (λ chunks spec,
          fset ← deref (Fset pkg);
          let specStartPos := PositionOf fset (Spec_Pos spec) in
          let specEndPos := PositionOf fset (Spec_End spec) in
          chunk ← parser.processSpecification ReadFile Fprint TypeVerb order
                    spec pkg md path specStartPos specEndPos;
          match chunk with
          | Some c => mret (chunks ++ [c])
          | None => mret chunks
          end) []) w0
    (λ chunks w',
       frame w0 w' ∧ (∃ ev, logged w' = logged w0 ++ ev) ∧
       reads w' = reads w0 ++ replicate (sum_list (specReads <$> Specs)) path ∧
       NoDup (Metadata <$> chunks) ∧
       ∀ c, c ∈ chunks →
            heap w0 !! Metadata c = None ∧
            bindingChunk ReadFile order pkg fset path tb
              (List.length (reads w0)) Specs w' c).
Proof.
  intros Hinfo Hfset Hmd.
  eapply post_mono.
  - apply (post_forRange Specs _
      (λ rest chunks w,
         ∃ done, Specs = done ++ rest ∧
           frame w0 w ∧ (∃ ev, logged w = logged w0 ++ ev) ∧
           reads w = reads w0 ++ replicate (sum_list (specReads <$> done)) path ∧
           NoDup (Metadata <$> chunks) ∧
           ∀ c, c ∈ chunks →
                is_Some (heap w !! Metadata c) ∧
                heap w0 !! Metadata c = None ∧
                bindingChunk ReadFile order pkg fset path tb
                  (List.length (reads w0)) done w c)).
    + exists []. split; [done|]. split; [apply frame_refl|].
      split; [exists []; by rewrite app_nil_r|].
      split; [simpl; by rewrite app_nil_r|].
      split; [constructor|]. by intros c ?%elem_of_nil.
    + intros spec rest chunks [h l rs]
        (done & HS & Hframe & [ev0 Hlog] & Hreads & Hnd & Hchunks).
      simpl in Hlog, Hreads. rewrite Hfset.
      apply post_bind, post_deref, post_bind.
      eapply post_mono.
      { apply (processSpecification_post spec pkg info md); [done|].
        by apply (Hframe md tb). }
      intros co w' (tc & ev & -> & Hagree & Hco).
      assert (frame w0 (mkWorld (<[fresh (dom h):=tc]> h) (l ++ ev)
                (rs ++ replicate (specReads spec) path))) as Hframe'.
      { eapply frame_trans; [done|]. apply frame_fresh. }
      assert (∀ c, c ∈ chunks →
                is_Some (<[fresh (dom h):=tc]> h !! Metadata c) ∧
                heap w0 !! Metadata c = None ∧
                bindingChunk ReadFile order pkg fset path tb
                  (List.length (reads w0)) (done ++ [spec])
                  (mkWorld (<[fresh (dom h):=tc]> h) (l ++ ev)
                     (rs ++ replicate (specReads spec) path)) c) as Hold.
      { intros c Hc. destruct (Hchunks c Hc) as ([t Ht] & H0 & Hb).
        split; [|split; [done|]].
        - exists t. rewrite lookup_insert_ne; [done|].
          intros Heq. rewrite <- Heq in Ht. simpl in Ht.
          by rewrite fresh_lookup in Ht.
        - eapply bindingChunk_mono; [done|apply frame_fresh|].
          intros x Hx. apply elem_of_app. by left. }
      assert (∃ ev', l ++ ev = logged w0 ++ ev') as Hlog'.
      { exists (ev0 ++ ev). by rewrite Hlog, app_assoc. }
      assert (rs ++ replicate (specReads spec) path
              = reads w0 ++ replicate
                  (sum_list (specReads <$> (done ++ [spec]))) path) as Hreads'.
      { rewrite Hreads, fmap_app, sum_list_app. simpl.
        rewrite Nat.add_0_r, replicate_add. by rewrite app_assoc. }
      destruct co as [c|]; apply post_ret.
      * exists (done ++ [spec]). rewrite <- app_assoc. split; [done|].
        split; [done|]. split; [done|]. split; [done|].
        destruct Hco as (Hmc & Hname & Hid & content & code & Hrd & _ & Hsl & Hdoc).
        split.
        { rewrite fmap_app. simpl. apply NoDup_app. split; [done|].
          split; [|apply NoDup_singleton].
          intros r Hr ->%list_elem_of_singleton.
          apply list_elem_of_fmap in Hr as (c' & Heq & Hc').
          destruct (Hchunks c' Hc') as ([t Ht] & _). simpl in Ht.
          rewrite <- Heq, Hmc in Ht. by rewrite fresh_lookup in Ht. }
        intros c' [Hc'| ->%list_elem_of_singleton]%elem_of_app; [by apply Hold|].
        simpl. rewrite Hmc, lookup_insert_eq. split; [by eexists|]. split.
        { destruct (heap w0 !! fresh (dom h)) as [t|] eqn:Ht; [|done].
          apply Hframe in Ht. simpl in Ht. by rewrite fresh_lookup in Ht. }
        exists tc, spec. simpl. rewrite Hmc, lookup_insert_eq.
        split; [done|]. split; [apply elem_of_app; right; by left|].
        split; [done|]. split; [done|]. split; [done|].
        exists (List.length rs), content, code.
        split; [|split; [done|by rewrite Hinfo in *]].
        rewrite Hreads, length_app. lia.
      * exists (done ++ [spec]). rewrite <- app_assoc. split; [done|].
        split; [done|]. split; [done|]. split; [done|]. split; [done|]. done.
  - intros chunks w' (done & HS & Hframe & Hlog & Hreads & Hnd & Hchunks).
    rewrite app_nil_r in HS. subst done.
    split; [done|]. split; [done|]. split; [done|]. split; [done|].
    intros c Hc. by destruct (Hchunks c Hc) as (_ & ? & ?).
Qed.

(** One turn of the loop of [processFileDeclarations].  The chunks of
    earlier declarations stay; an invalid span costs the declaration and a
    log line, nothing else. *)
Lemma processOneDeclaration_post (pkg : Package) (info : Info) (fset : FileSet)
    (path packageName : string) (isVendored : bool) (content : string)
    (chunks : list ChromaDocument) (decl : Decl)
    (h : gmap nat (gmap string Value)) (l : list LogEvent) (rs : list string) :
  TypesInfo pkg = Some info → Fset pkg = Some fset →
  post (parser.processOneDeclaration ReadFile Fprint TypeVerb order pkg path
          packageName isVendored content chunks decl)
       (mkWorld h l rs)
    (λ chunks' w',
       ∃ new ev,
         chunks' = chunks ++ new ∧
         frame (mkWorld h l rs) w' ∧
         logged w' = l ++ ev ∧
         reads w' = rs ++ replicate (if decide (invalidDecl fset content decl)
                                     then 0%nat else declReads decl) path ∧
         let md := fresh (dom h) in
         let sp := PositionOf fset (Decl_Pos decl) in
         let ep := PositionOf fset (Decl_End decl) in
         let tb := groupMetadata path packageName isVendored decl (Some info) in
         if decide (invalidDecl fset content decl)
         then
           new = [] ∧
           ev = [LogInvalidDeclOffsets path (Line sp) (Offset sp) (Offset ep)
                   (len content)] ∧
           heap w' = <[md := fileMetadata path packageName isVendored]> h
         else
           match decl with
           | DFunc funcDecl =>
               ∃ code,
                 slice content (Offset sp) (Offset ep) = Some code ∧
                 new = [mkChromaDocument
                          (parser.Sprintf_ID path (Line sp) (Line ep)
                             (Name (fd_Name funcDecl)))
                          (transform.ApplyQualifierReplacements order code
                             (Some (NDecl decl)) (Some info)) md] ∧
                 heap w' = <[md := functionMetadata Fprint TypeVerb info
                                      funcDecl tb]> h ∧
                 ev = []
           | DGen _ _ Tok Specs =>
               (Tok = IMPORT → new = []) ∧
               heap w' !! md = Some tb ∧
               NoDup (Metadata <$> new) ∧
               ∀ c, c ∈ new →
                    h !! Metadata c = None ∧ Metadata c ≠ md ∧
                    bindingChunk ReadFile order pkg fset path tb
                      (List.length rs) Specs w' c
           | DBad _ _ => new = [] ∧ ev = []
           end).
Proof.
  intros Hinfo Hfset. unfold parser.processOneDeclaration.
  apply post_bind, post_newMap. simpl. rewrite Hfset.
  apply post_bind, post_deref.
  unfold invalidDecl. simpl.
  fold (fileMetadata path packageName isVendored).
  set (sp := PositionOf fset (Decl_Pos decl)).
  set (ep := PositionOf fset (Decl_End decl)).
  set (md := fresh (dom h)).
  destruct (decide (parser.invalidOffsets (Offset sp) (Offset ep) content))
    as [Hinv|Hval].
  - apply post_bind, post_logPrintf, post_ret. simpl.
    eexists [], [_]. split; [by rewrite app_nil_r|].
    split; [apply frame_fresh|]. split; [done|].
    split; [by rewrite app_nil_r|]. done.
  - apply post_bind. unfold parser.sliceString.
    rewrite (slice_valid _ _ _ Hval). apply post_deref.
    apply post_bind, post_mapStore_ins. rewrite Hinfo.
    fold (groupMetadata path packageName isVendored decl (Some info)).
    set (tb := groupMetadata path packageName isVendored decl (Some info)).
    apply post_bind. unfold parser.processDeclaration.
    destruct decl as [funcDecl|p e Tok Specs|p e].
    + apply post_bind. eapply post_mono.
      { by apply processFunctionDeclaration_post. }
      intros co w' [-> ->]. apply post_ret, post_ret.
      eexists [_], []. split; [done|]. split; [apply frame_fresh|].
      split; [by rewrite app_nil_r|]. split; [by rewrite app_nil_r|].
      eexists. split; [done|]. done.
    + unfold parser.processGeneralDeclaration.
      assert (Tok = IMPORT ∨ Tok ≠ IMPORT) as [->|HTok]
        by (destruct Tok; auto).
      { apply post_ret, post_ret. exists [], []. rewrite !app_nil_r.
        split; [done|]. split; [apply frame_fresh|]. split; [done|].
        split; [done|]. split; [done|].
        split; [apply lookup_insert_eq|]. split; [constructor|].
        by intros c ?%elem_of_nil. }
      eapply (post_mono _ _
        (λ declChunks w',
           frame (mkWorld (<[md := tb]> h) l rs) w' ∧
           (∃ ev, logged w' = l ++ ev) ∧
           reads w' = rs ++ replicate (sum_list (specReads <$> Specs)) path ∧
           NoDup (Metadata <$> declChunks) ∧
           ∀ c, c ∈ declChunks →
                (<[md := tb]> h) !! Metadata c = None ∧
                bindingChunk ReadFile order pkg fset path tb
                  (List.length rs) Specs w' c)).
      { pose proof (specs_loop_post Specs pkg info fset md path tb
                      (mkWorld (<[md := tb]> h) l rs) Hinfo Hfset
                      (lookup_insert_eq _ _ _)) as Hloop.
        destruct Tok; [done|exact Hloop..]. }
      intros declChunks w' (Hframe & [ev Hlog] & Hreads & Hnd & Hc).
      apply post_ret. exists declChunks, ev.
      split; [done|]. split.
      { eapply frame_trans; [|done]. apply frame_fresh. }
      split; [done|]. split.
      { rewrite Hreads. do 2 f_equal. by destruct Tok. }
      split; [done|]. split.
      { apply Hframe. apply lookup_insert_eq. }
      split; [done|]. intros c Hin. destruct (Hc c Hin) as [Hnone Hb].
      apply lookup_insert_None in Hnone as [? ?]. done.
    + apply post_ret, post_ret. exists [], []. rewrite !app_nil_r.
      split; [done|]. split; [apply frame_fresh|]. done.
Qed.

Lemma extends_refl (w : World) : extends w w.
Proof.
  split; [apply frame_refl|]. split; exists []; by rewrite app_nil_r.
Qed.

Lemma extends_trans (w1 w2 w3 : World) :
  extends w1 w2 → extends w2 w3 → extends w1 w3.
Proof.
  intros (F1 & [e1 L1] & [r1 R1]) (F2 & [e2 L2] & [r2 R2]).
  split; [by eapply frame_trans|]. split.
  - exists (e1 ++ e2). by rewrite L2, L1, app_assoc.
  - exists (r1 ++ r2). by rewrite R2, R1, app_assoc.
Qed.

(** A loop whose every turn keeps the chunks it is handed and only extends
    the state does so as a whole. *)
Lemma forRange_keeps {A} (l : list A)
    (body : list ChromaDocument → A → M (list ChromaDocument))
    (acc : list ChromaDocument) (w : World) :
  (∀ a acc w, a ∈ l →
     post (body acc a) w (λ acc' w', acc `prefix_of` acc' ∧ extends w w')) →
  post (forRange l body acc) w (λ acc' w', acc `prefix_of` acc' ∧ extends w w').
Proof.
  intros Hbody.
  eapply post_mono.
  - apply (post_forRange l body
      (λ rest acc' w', (∀ a, a ∈ rest → a ∈ l) ∧
                       acc `prefix_of` acc' ∧ extends w w')).
    + split; [done|]. split; [done|apply extends_refl].
    + intros a rest acc1 w1 (Hin & Hp & He).
      eapply post_mono; [apply Hbody, Hin; left|].
      intros acc2 w2 [Hp2 He2]. split; [|split].
      * intros x Hx. apply Hin. by right.
      * by etrans.
      * by eapply extends_trans.
  - by intros acc' w' (_ & ? & ?).
Qed.

Lemma slicedFrom_mono (pkg : Package) (fset : FileSet) (path content : string)
    (n m : nat) (d1 d2 : list Decl) (c : ChromaDocument) :
  slicedFrom ReadFile order pkg fset path content n d1 c →
  (m ≤ n)%nat → d1 ⊆ d2 →
  slicedFrom ReadFile order pkg fset path content m d2 c.
Proof.
  intros [(f & code & Hin & H)|(p & e & Tok & Specs & spec & k & later & code
                                 & Hin & Hs & Hk & H)] Hmn Hsub.
  - left. exists f, code. split; [by apply Hsub|done].
  - right. exists p, e, Tok, Specs, spec, k, later, code.
    split; [by apply Hsub|]. split; [done|]. split; [lia|done].
Qed.

(** The loop of [processFileDeclarations], with its count of reads and the
    origin of every chunk. *)
Lemma processFileDeclarations_post (file : File) (pkg : Package) (info : Info)
    (fset : FileSet) (path packageName : string) (isVendored : bool)
    (content : string) (w : World) :
  TypesInfo pkg = Some info → Fset pkg = Some fset →
  post (parser.processFileDeclarations ReadFile Fprint TypeVerb order file pkg
          path packageName isVendored content) w
    (λ chunks w',
       extends w w' ∧
       reads w' = reads w ++ replicate (fileReads fset content (Decls file)) path ∧
       ∀ c, c ∈ chunks →
            slicedFrom ReadFile order pkg fset path content
              (List.length (reads w)) (Decls file) c).
Proof.
  intros Hinfo Hfset. unfold parser.processFileDeclarations.
  eapply post_mono.
  - apply (post_forRange (Decls file) _
      (λ rest chunks w',
         ∃ done, Decls file = done ++ rest ∧ extends w w' ∧
           reads w' = reads w ++ replicate (fileReads fset content done) path ∧
           ∀ c, c ∈ chunks →
                slicedFrom ReadFile order pkg fset path content
                  (List.length (reads w)) done c)).
    + exists []. split; [done|]. split; [apply extends_refl|].
      split; [simpl; by rewrite app_nil_r|]. by intros c ?%elem_of_nil.
    + intros decl rest chunks [h l rs] (done & Hd & He & Hr & Hc).
      eapply post_mono.
      { by apply (processOneDeclaration_post pkg info fset). }
      intros chunks' w' (new & ev & -> & Hf & Hl & Hr' & Hnew).
      exists (done ++ [decl]). rewrite <- app_assoc. split; [done|].
      split; [|split].
      * eapply extends_trans; [done|]. split; [done|].
        split; [by exists ev|]. by eexists.
      * rewrite Hr'. simpl in Hr. rewrite Hr. unfold fileReads.
        rewrite fmap_app, sum_list_app. simpl.
        rewrite Nat.add_0_r, replicate_add. by rewrite app_assoc.
      * simpl in Hr.
        assert (List.length (reads w) ≤ List.length rs)%nat as Hlen.
        { rewrite Hr, length_app. lia. }
        intros c [Hin|Hin]%elem_of_app.
        { eapply slicedFrom_mono; [by apply Hc|done|].
          intros x Hx. apply elem_of_app. by left. }
        simpl in Hnew. case_decide as Hinv.
        { destruct Hnew as [-> _]. by apply elem_of_nil in Hin. }
        destruct decl as [funcDecl|p e Tok Specs|p e].
        -- destruct Hnew as (code & Hsl & -> & _).
           apply list_elem_of_singleton in Hin as ->.
           left. exists funcDecl, code.
           split; [apply elem_of_app; right; by left|].
           split; [done|]. simpl. by rewrite Hinfo.
        -- destruct Hnew as (_ & _ & _ & Hb).
           destruct (Hb c Hin) as (_ & _ & tc & spec & _ & Hs & _ & _ & _
                                     & n & later & code & Hn & Hrd & Hsl & Hdoc).
           right. exists p, e, Tok, Specs, spec, n, later, code.
           split; [apply elem_of_app; right; by left|].
           split; [done|]. split; [lia|done].
        -- destruct Hnew as [-> _]. by apply elem_of_nil in Hin.
  - intros chunks w' (done & Hd & He & Hr & Hc). rewrite app_nil_r in Hd.
    by subst done.
Qed.

(** One turn of the loop of [processPackage], for a file whose position
    lies in the file [path] of the file set: the file is read once here,
    and again for each type or value binding of a declaration with a valid
    span. *)
Lemma processOneFile_post (pkg : Package) (info : Info) (fset : FileSet)
    (absVendorPath : string) (chunks : list ChromaDocument) (file : File)
    (path : string) (w : World) :
  TypesInfo pkg = Some info → Fset pkg = Some fset →
  FileName fset (file_Pos file) = Some path →
  post (parser.processOneFile ReadFile Separator Fprint TypeVerb order pkg
          absVendorPath chunks file) w
    (λ chunks' w',
       ∃ new, chunks' = chunks ++ new ∧ extends w w' ∧
       match ReadFile (List.length (reads w)) path with
       | Some content =>
           reads w' = reads w ++
             path :: replicate (fileReads fset content (Decls file)) path ∧
           ∀ c, c ∈ new →
                slicedFrom ReadFile order pkg fset path content
                  (S (List.length (reads w))) (Decls file) c
       | None =>
           new = [] ∧ reads w' = reads w ++ [path] ∧
           logged w' = logged w ++ [LogErrorReadingFile path]
       end).
Proof.
  intros Hinfo Hfset Hname. unfold parser.processOneFile.
  rewrite Hfset. apply post_bind, post_deref. rewrite Hname.
  apply post_bind, post_deref, post_bind, post_ReadFile. simpl.
  destruct (ReadFile (List.length (reads w)) path) as [content|].
  - apply post_bind. eapply post_mono.
    { by apply (processFileDeclarations_post file pkg info fset). }
    intros fileChunks w' (He & Hr & Hc). apply post_ret.
    exists fileChunks. split; [done|]. split; [|split].
    + eapply extends_trans; [|done].
      split; [by intros r t|]. split; [exists []; by rewrite app_nil_r|].
      by eexists.
    + rewrite Hr. simpl. by rewrite <- app_assoc.
    + intros c Hin. eapply slicedFrom_mono; [by apply Hc| |done].
      simpl. rewrite length_app. simpl. lia.
  - apply post_bind, post_logPrintf, post_ret. simpl.
    exists []. rewrite app_nil_r. split; [done|]. split; [|done].
    split; [by intros r t|]. split; by eexists.
Qed.

(** A file whose position lies in no file of the file set: [Name()] is
    called on a nil [*token.File], and the run panics. *)
Lemma processOneFile_panics (pkg : Package) (fset : FileSet)
    (absVendorPath : string) (chunks : list ChromaDocument) (file : File)
    (w : World) :
  Fset pkg = Some fset → FileName fset (file_Pos file) = None →
  parser.processOneFile ReadFile Separator Fprint TypeVerb order pkg
    absVendorPath chunks file w = None.
Proof.
  intros Hfset Hname. unfold parser.processOneFile. rewrite Hfset.
  unfold mbind, M_bind. simpl. by rewrite Hname.
Qed.

(** [processPackage] never reports an error. *)
Lemma processPackage_post (pkg : Package) (info : Info) (fset : FileSet)
    (absVendorPath : string) (w : World) :
  TypesInfo pkg = Some info → Fset pkg = Some fset →
  (∀ file, file ∈ default [] (Syntax pkg) →
           is_Some (FileName fset (file_Pos file))) →
  post (parser.processPackage ReadFile Separator Fprint TypeVerb order pkg
          absVendorPath) w
    (λ r w', r.2 = None ∧ extends w w').
Proof.
  intros Hinfo Hfset Hnamed. unfold parser.processPackage.
  apply post_bind. eapply post_mono.
  - apply forRange_keeps. intros file acc w1 Hin.
    destruct (Hnamed file Hin) as [path Hpath]. eapply post_mono.
    + by apply (processOneFile_post pkg info fset _ _ _ path).
    + intros acc' w' (new & -> & ? & _). split; [by exists new|done].
  - intros chunks w' [_ He]. by apply post_ret.
Qed.

(** One turn of the loop of [ParsePackages], for a package whose files
    all have their position in the file set. *)
Lemma parseOnePackage_post (absVendorPath : string)
    (allChunks : list ChromaDocument) (pkg : Package) (w : World) :
  filesNamed pkg →
  post (parser.parseOnePackage ReadFile Separator Fprint TypeVerb order
          absVendorPath allChunks pkg) w
    (λ allChunks' w', allChunks `prefix_of` allChunks' ∧ extends w w').
Proof.
  intros Hnamed. unfold parser.parseOnePackage.
  assert (extends w (mkWorld (heap w)
            (logged w ++ [LogSkipPackage (ID pkg)]) (reads w))) as Hext.
  { split; [by intros r t|]. split; [by eexists|].
    exists []. simpl. by rewrite app_nil_r. }
  destruct (TypesInfo pkg) as [info|] eqn:Hinfo;
    [destruct (Syntax pkg) as [files|] eqn:Hsyn;
     [destruct (Fset pkg) as [fset|] eqn:Hfset|]|];
    try by apply post_bind, post_logPrintf, post_ret.
  apply post_bind. eapply post_mono.
  { apply (processPackage_post pkg info fset); [done..|].
    rewrite Hsyn. simpl. intros file Hin. by apply (Hnamed files fset file). }
  intros [chunks err] w' [Herr He]. simpl in Herr. subst err.
  apply post_ret. split; [by exists chunks|done].
Qed.

(** A package without type table, syntax trees or file set is skipped
    with one log line, whatever else it holds. *)
Lemma parseOnePackage_skips (absVendorPath : string)
    (allChunks : list ChromaDocument) (pkg : Package) (w : World) :
  TypesInfo pkg = None ∨ Syntax pkg = None ∨ Fset pkg = None →
  parser.parseOnePackage ReadFile Separator Fprint TypeVerb order
    absVendorPath allChunks pkg w
  = Some (allChunks,
          mkWorld (heap w) (logged w ++ [LogSkipPackage (ID pkg)]) (reads w)).
Proof.
  intros Hnone. unfold parser.parseOnePackage.
  destruct (TypesInfo pkg) as [info|];
    [destruct (Syntax pkg) as [files|]; [destruct (Fset pkg) as [fset|]|]|];
    try done.
  by destruct Hnone as [?|[?|?]].
Qed.

End ExtractorFacts.

(** ** The Corpus Loader *)

Section LoaderFacts.
Import GoStrings Ast runtime observe.

Variable Stat : string → loader.StatResult.
Variable Join : string → string → string.
Variable Load : string → list Package * option string.

(** A loop of log lines changes nothing but the log. *)
Lemma forRange_log_only {A} (l : list A) (body : unit → A → M unit) (w : World) :
  (∀ a w, post (body tt a) w
            (λ _ w', heap w' = heap w ∧ reads w' = reads w)) →
  post (forRange l body tt) w (λ _ w', heap w' = heap w ∧ reads w' = reads w).
Proof.
  intros Hbody. eapply post_mono.
  - apply (post_forRange l body
             (λ _ _ w', heap w' = heap w ∧ reads w' = reads w)); [done|].
    intros a rest [] w1 [Hh Hr]. eapply post_mono; [apply Hbody|].
    intros _ w2 [Hh2 Hr2]. split; congruence.
  - done.
Qed.

Lemma logLoadedPackages_post (allPkgs : list Package) (w : World) :
  post (loader.logLoadedPackages allPkgs) w
    (λ _ w', heap w' = heap w ∧ reads w' = reads w).
Proof.
  unfold loader.logLoadedPackages.
  apply post_bind, post_logPrintf, post_bind.
  eapply post_mono.
  - apply forRange_log_only. intros pkg w1.
    apply post_bind, post_logPrintf.
    destruct (GoFiles pkg) as [|f files].
    + by apply post_logPrintf.
    + apply post_bind. eapply post_mono.
      * apply forRange_log_only. intros g w2. by apply post_logPrintf.
      * intros _ w2 [Hh Hr]. case_decide.
        -- by apply post_logPrintf.
        -- by apply post_ret.
  - intros _ w1 [Hh Hr]. by apply post_logPrintf.
Qed.

Lemma loadPass_post (dir : string) (w : World) :
  post (loader.loadPass Load dir) w
    (λ pkgs w', pkgs = (Load dir).1 ∧ heap w' = heap w ∧ reads w' = reads w).
Proof.
  unfold loader.loadPass. apply post_bind, post_logPrintf.
  destruct (Load dir) as [pkgs [e|]]; simpl.
  - by apply post_bind, post_logPrintf, post_bind, post_logPrintf, post_ret.
  - by apply post_bind, post_ret, post_bind, post_logPrintf, post_ret.
Qed.

(** [LoadGoProject] returns a nil error, whatever [os.Stat] and the two
    loading passes report. *)
Lemma LoadGoProject_post (projectPath : string) (w : World) :
  post (loader.LoadGoProject Stat Join Load projectPath) w
    (λ r w', r.2 = None ∧ heap w' = heap w ∧ reads w' = reads w).
Proof.
  unfold loader.LoadGoProject.
  apply post_bind.
  eapply (post_mono _ _ (λ _ w', heap w' = heap w ∧ reads w' = reads w)).
  { destruct (Stat (Join projectPath "vendor")); by apply post_logPrintf. }
  intros _ w1 [Hh1 Hr1]. apply post_bind.
  eapply post_mono; [apply loadPass_post|].
  intros mainPkgs w2 (_ & Hh2 & Hr2). apply post_bind.
  eapply post_mono; [apply loadPass_post|].
  intros vendorPkgs w3 (_ & Hh3 & Hr3).
  destruct (loader.appendUnique vendorPkgs
              (loader.appendUnique mainPkgs ([], ∅))) as [allPkgs ids].
  apply post_bind, post_logPrintf, post_bind.
  eapply post_mono; [apply logLoadedPackages_post|].
  intros _ w4 [Hh4 Hr4]. apply post_ret. simpl in *.
  split; [done|]. split; congruence.
Qed.

(** The packages [LoadGoProject] returns: those of the main module and
    then those of the vendor directory, without the ones whose ID was
    seen before. *)
Lemma LoadGoProject_packages (projectPath : string) (w : World) :
  post (loader.LoadGoProject Stat Join Load projectPath) w
    (λ r w',
       r = ((loader.appendUnique (Load (Join projectPath "vendor")).1
               (loader.appendUnique (Load projectPath).1 ([], ∅))).1, None)).
Proof.
  unfold loader.LoadGoProject.
  apply post_bind.
  eapply (post_mono _ _ (λ _ _, True)).
  { destruct (Stat (Join projectPath "vendor")); by apply post_logPrintf. }
  intros _ w1 _. apply post_bind.
  eapply post_mono; [apply loadPass_post|].
  intros mainPkgs w2 (-> & _). apply post_bind.
  eapply post_mono; [apply loadPass_post|].
  intros vendorPkgs w3 (-> & _).
  destruct (loader.appendUnique (Load (Join projectPath "vendor")).1
              (loader.appendUnique (Load projectPath).1 ([], ∅)))
    as [allPkgs ids].
  apply post_bind, post_logPrintf, post_bind.
  eapply post_mono; [apply logLoadedPackages_post|].
  intros _ w4 _. by apply post_ret.
Qed.

End LoaderFacts.

(** Whatever the deduplicating loop returns was there before or is one of
    the packages it was handed. *)
Lemma appendUnique_elem (pkgs : list Ast.Package)
    (acc : list Ast.Package * gset string) (pkg : Ast.Package) :
  pkg ∈ (loader.appendUnique pkgs acc).1 → pkg ∈ acc.1 ∨ pkg ∈ pkgs.
Proof.
  revert acc. induction pkgs as [|p pkgs IH]; intros [acc ids].
  - intros Hin. by left.
  - unfold loader.appendUnique. simpl. fold (loader.appendUnique pkgs).
    case_decide.
    + intros [?|?]%IH; [by left|right; by right].
    + intros [[?|Hs]%elem_of_app|?]%IH.
      * by left.
      * apply list_elem_of_singleton in Hs as ->. right; left.
      * right; by right.
Qed.

(** ** The run as a whole *)

Lemma ParsePackages_post (ReadFile : nat → string → option string)
    (Abs : string → option string) (Join : string → string → string)
    (Separator : string) (Fprint : Ast.Expr → option string)
    (TypeVerb : Ast.Expr → string)
    (order : gmap string string → transform.MapOrder)
    (allPkgs : list Ast.Package) (projectPath absVendorPath : string)
    (w : runtime.World) :
  Abs (Join projectPath "vendor") = Some absVendorPath →
  (∀ pkg, pkg ∈ allPkgs → observe.filesNamed pkg) →
  observe.post
    (parser.ParsePackages ReadFile Abs Join Separator Fprint TypeVerb order
       allPkgs projectPath) w
    (λ r w', r.2 = None ∧ observe.extends w w').
Proof.
  intros HAbs Hnamed. unfold parser.ParsePackages. rewrite HAbs.
  apply post_bind. eapply post_mono.
  - apply forRange_keeps. intros pkg acc w1 Hin.
    by apply parseOnePackage_post, Hnamed.
  - intros chunks w' [_ He]. by apply post_ret.
Qed.

(** When [ParsePackages] returns, its error is nil unless the vendor path
    could not be resolved. *)
Lemma ParsePackages_error (ReadFile : nat → string → option string)
    (Abs : string → option string) (Join : string → string → string)
    (Separator : string) (Fprint : Ast.Expr → option string)
    (TypeVerb : Ast.Expr → string)
    (order : gmap string string → transform.MapOrder)
    (allPkgs : list Ast.Package) (projectPath : string)
    (w w' : runtime.World)
    (r : list runtime.ChromaDocument * option string) :
  parser.ParsePackages ReadFile Abs Join Separator Fprint TypeVerb order
    allPkgs projectPath w = Some (r, w') →
  match Abs (Join projectPath "vendor") with
  | Some _ => r.2 = None
  | None =>
      r = ([], Some "failed to resolve absolute path for vendor directory")
      ∧ w' = w
  end.
Proof.
  unfold parser.ParsePackages.
  destruct (Abs (Join projectPath "vendor")) as [a|].
  - unfold mbind, runtime.M_bind.
    destruct (runtime.forRange allPkgs _ [] w) as [[chunks w1]|]; [|done].
    by intros [= <- <-].
  - by intros [= <- <-].
Qed.

(** Any world whose heap has a map at [md] has the shape the function
    lemmas are stated for. *)
Lemma world_with_map (w : runtime.World) (md : nat)
    (table : gmap string runtime.Value) :
  runtime.heap w !! md = Some table →
  w = runtime.mkWorld (<[md := table]> (runtime.heap w)) (runtime.logged w)
        (runtime.reads w).
Proof. intros H. destruct w as [h l rs]. simpl in *. by rewrite insert_id. Qed.

(** C6.  A function declaration with a receiver yields one chunk whose
    metadata has [entity_type = "method"], [receiver_type] equal to the
    type text of the receiver's declared type, and [entity_name] equal to
    that text, a dot, and the function name.  Without a receiver the
    metadata has [entity_type = "function"], [entity_name] equal to the
    function name, and [receiver_type] is not set. *)
Theorem C6_method_metadata
    (Fprint : Ast.Expr → option string) (TypeVerb : Ast.Expr → string)
    (order : gmap string string → transform.MapOrder)
    (funcDecl : Ast.FuncDecl) (pkg : Ast.Package) (info : Ast.Info)
    (code : string) (md : nat) (path : string) (sp ep : Ast.Position)
    (w : runtime.World) (table : gmap string runtime.Value) :
  Ast.TypesInfo pkg = Some info →
  runtime.heap w !! md = Some table →
  ∃ c w' table',
    parser.processFunctionDeclaration Fprint TypeVerb order funcDecl pkg code
      md path sp ep w = Some (Some c, w') ∧
    runtime.Metadata c = md ∧
    runtime.heap w' !! md = Some table' ∧
    match Ast.fd_Recv funcDecl with
    | Some (recv0 :: _) =>
        table' !! "entity_type" = Some (runtime.VString "method") ∧
        table' !! "receiver_type"
        = Some (runtime.VString
                  (analyzer.GetTypeString Fprint TypeVerb info recv0.2)) ∧
        table' !! "entity_name"
        = Some (runtime.VString
                  (analyzer.GetTypeString Fprint TypeVerb info recv0.2
                   +:+ "." +:+ Ast.Name (Ast.fd_Name funcDecl)))
    | _ =>
        table' !! "entity_type" = Some (runtime.VString "function") ∧
        table' !! "entity_name"
        = Some (runtime.VString (Ast.Name (Ast.fd_Name funcDecl))) ∧
        table' !! "receiver_type" = table !! "receiver_type"
    end.
Proof.
  intros Hinfo Hmd. rewrite (world_with_map w md table Hmd).
  destruct (processFunctionDeclaration_post Fprint TypeVerb order funcDecl pkg
              info code md path sp ep table (runtime.heap w)
              (runtime.logged w) (runtime.reads w) Hinfo)
    as (co & w' & Hrun & -> & ->).
  eexists _, _, _. split; [exact Hrun|]. split; [done|].
  split; [apply lookup_insert_eq|].
  unfold observe.functionMetadata.
  destruct (Ast.fd_Recv funcDecl) as [[|recv0 recvs]|].
  - split; [|split].
    + rewrite lookup_insert_ne; [|done]. apply lookup_insert_eq.
    + apply lookup_insert_eq.
    + by rewrite !lookup_insert_ne.
  - split; [|split].
    + do 2 (rewrite lookup_insert_ne; [|done]). apply lookup_insert_eq.
    + rewrite lookup_insert_ne; [|done]. apply lookup_insert_eq.
    + apply lookup_insert_eq.
  - split; [|split].
    + rewrite lookup_insert_ne; [|done]. apply lookup_insert_eq.
    + apply lookup_insert_eq.
    + by rewrite !lookup_insert_ne.
Qed.

(** The method [Bar] with receiver [*Foo], starting from an empty map. *)
Lemma C6_method_metadata_witness :
  ∃ c w' table',
    parser.processFunctionDeclaration examples.Fprint examples.TypeVerb
      examples.noOrder examples.Bar examples.pkg "func (f *Foo) Bar() {}"
      0%nat "/p/a.go" (Ast.mkPosition 0 1) (Ast.mkPosition 22 1)
      (runtime.mkWorld {[0%nat := ∅]} [] []) = Some (Some c, w') ∧
    runtime.Metadata c = 0%nat ∧
    runtime.heap w' !! 0%nat = Some table' ∧
    table' !! "entity_type" = Some (runtime.VString "method") ∧
    table' !! "receiver_type" = Some (runtime.VString "*Foo") ∧
    table' !! "entity_name" = Some (runtime.VString "*Foo.Bar").
Proof.
  apply (C6_method_metadata examples.Fprint examples.TypeVerb examples.noOrder
           examples.Bar examples.pkg examples.info "func (f *Foo) Bar() {}"
           0%nat "/p/a.go" (Ast.mkPosition 0 1) (Ast.mkPosition 22 1)
           (runtime.mkWorld {[0%nat := ∅]} [] []) ∅).
  - reflexivity.
  - reflexivity.
Defined.

(** C1.  The chunk of the method [Bar] of [/p/a.go] gets the identifier
    [/p/a.go:1-1-Bar], built from the bare function name, while the name
    stored under [entity_name] is [*Foo.Bar]: for a method the identifier
    is not [<file_path>:<start_line>-<end_line>-<entity_name>]. *)
Theorem C1_method_identifier_has_bare_name :
  ∃ c rest w' table,
    parser.ParsePackages (examples.still examples.a_go) examples.Abs
      examples.Join "/" examples.Fprint examples.TypeVerb examples.noOrder
      [examples.pkg] "/p" runtime.emptyWorld = Some ((c :: rest, None), w') ∧
    runtime.heap w' !! runtime.Metadata c = Some table ∧
    table !! "entity_type" = Some (runtime.VString "method") ∧
    table !! "entity_name" = Some (runtime.VString "*Foo.Bar") ∧
    runtime.ChunkID c = "/p/a.go:1-1-Bar" ∧
    runtime.ChunkID c ≠ parser.Sprintf_ID "/p/a.go" 1 1 "*Foo.Bar".
Proof.
  eexists _, _, _, _. split; [vm_compute; reflexivity|].
  split; [vm_compute; reflexivity|].
  split; [vm_compute; reflexivity|].
  split; [vm_compute; reflexivity|].
  split; [vm_compute; reflexivity|].
  vm_compute. discriminate.
Qed.

(** Where the identifier does follow the stored name: the chunk of a
    declaration without receiver, and the chunk of every binding. *)
Lemma function_identifier_follows_name
    (Fprint : Ast.Expr → option string) (TypeVerb : Ast.Expr → string)
    (order : gmap string string → transform.MapOrder)
    (funcDecl : Ast.FuncDecl) (pkg : Ast.Package) (info : Ast.Info)
    (code : string) (md : nat) (path : string) (sp ep : Ast.Position)
    (w : runtime.World) (table : gmap string runtime.Value) :
  Ast.TypesInfo pkg = Some info →
  runtime.heap w !! md = Some table →
  Ast.fd_Recv funcDecl = None ∨ Ast.fd_Recv funcDecl = Some [] →
  ∃ c w' table' name,
    parser.processFunctionDeclaration Fprint TypeVerb order funcDecl pkg code
      md path sp ep w = Some (Some c, w') ∧
    runtime.heap w' !! runtime.Metadata c = Some table' ∧
    table' !! "entity_name" = Some (runtime.VString name) ∧
    runtime.ChunkID c
    = parser.Sprintf_ID path (Ast.Line sp) (Ast.Line ep) name.
Proof.
  intros Hinfo Hmd Hrecv. rewrite (world_with_map w md table Hmd).
  destruct (processFunctionDeclaration_post Fprint TypeVerb order funcDecl pkg
              info code md path sp ep table (runtime.heap w)
              (runtime.logged w) (runtime.reads w) Hinfo)
    as (co & w' & Hrun & -> & ->).
  eexists _, _, _, _. split; [exact Hrun|]. simpl.
  split; [apply lookup_insert_eq|].
  unfold observe.functionMetadata.
  destruct Hrecv as [-> | ->]; (split; [apply lookup_insert_eq|done]).
Qed.

Lemma binding_identifier_follows_name
    (ReadFile : nat → string → option string)
    (Fprint : Ast.Expr → option string) (TypeVerb : Ast.Expr → string)
    (order : gmap string string → transform.MapOrder)
    (spec : Ast.Spec) (pkg : Ast.Package) (info : Ast.Info) (base : nat)
    (path : string) (sp ep : Ast.Position) (w : runtime.World)
    (tb : gmap string runtime.Value) :
  Ast.TypesInfo pkg = Some info →
  runtime.heap w !! base = Some tb →
  ∃ co w',
    parser.processSpecification ReadFile Fprint TypeVerb order spec pkg base
      path sp ep w = Some (co, w') ∧
    ∀ c, co = Some c →
      ∃ table' name,
        runtime.heap w' !! runtime.Metadata c = Some table' ∧
        table' !! "entity_name" = Some (runtime.VString name) ∧
        runtime.ChunkID c
        = parser.Sprintf_ID path (Ast.Line sp) (Ast.Line ep) name.
Proof.
  intros Hinfo Hbase. destruct w as [h l rs].
  destruct (processSpecification_post ReadFile Fprint TypeVerb order spec pkg
              info base path sp ep tb h l rs Hinfo Hbase)
    as (co & w' & Hrun & tc & ev & -> & _ & Hco).
  exists co. eexists. split; [exact Hrun|].
  intros c ->. destruct Hco as (Hmc & Hname & Hid & _).
  exists tc, (observe.entityNameOf spec). simpl.
  rewrite Hmc, lookup_insert_eq. done.
Qed.

(** C5.  Every binding of a declaration group gets a metadata map of its
    own: the maps of the bindings are pairwise distinct and distinct from
    the map of the group, each holds the entries of the group-level metadata
    under every key that is not a per-binding key, and each holds its own
    binding's name.  The map of the group is left as it was.  Processing a
    binding changes no map that existed before, so a field set for one
    binding never reaches a sibling. *)
Theorem C5_binding_metadata_is_a_copy
    (ReadFile : nat → string → option string)
    (Fprint : Ast.Expr → option string) (TypeVerb : Ast.Expr → string)
    (order : gmap string string → transform.MapOrder)
    (pkg : Ast.Package) (info : Ast.Info) (fset : Ast.FileSet)
    (path packageName : string) (isVendored : bool) (content : string)
    (chunks : list runtime.ChromaDocument) (p e : Z) (Tok : Ast.Token)
    (Specs : list Ast.Spec) (w : runtime.World) :
  Ast.TypesInfo pkg = Some info → Ast.Fset pkg = Some fset →
  ¬ observe.invalidDecl fset content (Ast.DGen p e Tok Specs) →
  (∃ new w',
     parser.processOneDeclaration ReadFile Fprint TypeVerb order pkg path
       packageName isVendored content chunks (Ast.DGen p e Tok Specs) w
     = Some (chunks ++ new, w') ∧
     observe.frame w w' ∧
     runtime.heap w' !! fresh (dom (runtime.heap w))
     = Some (observe.groupMetadata path packageName isVendored
               (Ast.DGen p e Tok Specs) (Some info)) ∧
     NoDup (runtime.Metadata <$> new) ∧
     ∀ c, c ∈ new →
       runtime.Metadata c ≠ fresh (dom (runtime.heap w)) ∧
       runtime.heap w !! runtime.Metadata c = None ∧
       ∃ tc spec,
         runtime.heap w' !! runtime.Metadata c = Some tc ∧ spec ∈ Specs ∧
         (∀ k, k ∉ observe.perBindingKeys →
               tc !! k = observe.groupMetadata path packageName isVendored
                           (Ast.DGen p e Tok Specs) (Some info) !! k) ∧
         tc !! "entity_name"
         = Some (runtime.VString (observe.entityNameOf spec))) ∧
  (∀ spec base sp ep w0 tb,
     runtime.heap w0 !! base = Some tb →
     ∃ co w1,
       parser.processSpecification ReadFile Fprint TypeVerb order spec pkg
         base path sp ep w0 = Some (co, w1) ∧
       observe.frame w0 w1).
Proof.
  intros Hinfo Hfset Hval. split.
  - destruct w as [h l rs].
    destruct (processOneDeclaration_post ReadFile Fprint TypeVerb order pkg
                info fset path packageName isVendored content chunks
                (Ast.DGen p e Tok Specs) h l rs Hinfo Hfset)
      as (chunks' & w' & Hrun & new & ev & -> & Hframe & _ & _ & Hnew).
    simpl in Hnew. rewrite decide_False in Hnew; [|done].
    destruct Hnew as (_ & Hgroup & Hnd & Hc).
    exists new, w'. split; [exact Hrun|]. split; [done|]. split; [done|].
    split; [done|]. intros c Hin.
    destruct (Hc c Hin) as (Hnone & Hne & tc & spec & Htc & Hs & Hagree
                              & Hname & _).
    split; [done|]. split; [done|]. by exists tc, spec.
  - intros spec base sp ep [h0 l0 rs0] tb Hbase.
    destruct (processSpecification_post ReadFile Fprint TypeVerb order spec
                pkg info base path sp ep tb h0 l0 rs0 Hinfo Hbase)
      as (co & w1 & Hrun & tc & ev & -> & _).
    exists co. eexists. split; [exact Hrun|]. apply frame_fresh.
Qed.

Lemma g_decl_valid :
  ¬ observe.invalidDecl examples.g_fset examples.g_go examples.g_decl.
Proof.
  apply valid_offsets_slice. vm_compute. repeat split; discriminate.
Qed.

(** The group [type ( A int; B int )]: two chunks, two maps. *)
Lemma C5_binding_metadata_is_a_copy_witness :
  ∃ new w',
    parser.processOneDeclaration (examples.still examples.g_go)
      examples.Fprint examples.TypeVerb examples.noOrder examples.g_pkg
      "/p/g.go" "g" false examples.g_go [] examples.g_decl runtime.emptyWorld
    = Some ([] ++ new, w') ∧
    NoDup (runtime.Metadata <$> new).
Proof.
  destruct (C5_binding_metadata_is_a_copy (examples.still examples.g_go)
              examples.Fprint examples.TypeVerb examples.noOrder examples.g_pkg
              examples.info examples.g_fset "/p/g.go" "g" false examples.g_go
              [] 1 23 Ast.TYPE [examples.A_spec; examples.B_spec]
              runtime.emptyWorld eq_refl eq_refl g_decl_valid)
    as [(new & w' & Hrun & _ & _ & Hnd & _) _].
  exists new, w'. split; [exact Hrun|exact Hnd].
Defined.

(** The two chunks of the group and the names in their maps. *)
Example group_names :
  ∃ cA cB w' tA tB,
    parser.processOneDeclaration (examples.still examples.g_go)
      examples.Fprint examples.TypeVerb examples.noOrder examples.g_pkg
      "/p/g.go" "g" false examples.g_go [] examples.g_decl runtime.emptyWorld
    = Some ([cA; cB], w') ∧
    runtime.Metadata cA ≠ runtime.Metadata cB ∧
    runtime.heap w' !! runtime.Metadata cA = Some tA ∧
    runtime.heap w' !! runtime.Metadata cB = Some tB ∧
    tA !! "entity_name" = Some (runtime.VString "A") ∧
    tB !! "entity_name" = Some (runtime.VString "B") ∧
    tA !! "file_path" = tB !! "file_path" ∧
    runtime.Document cA = "A int" ∧ runtime.Document cB = "B int".
Proof.
  eexists _, _, _, _, _. split; [vm_compute; reflexivity|].
  split; [vm_compute; discriminate|].
  repeat split; vm_compute; reflexivity.
Qed.

(** C8.  The slice expression succeeds exactly on the spans the offsets
    test lets through, and the test lets through exactly the spans with
    [0 <= start <= end <= len(file)].  A declaration that fails the test is
    skipped: the chunks so far are kept, one line is logged, no read
    happens, and the loop goes on with the remaining declarations.  The
    same holds for a binding.  Hence the declarations of a file are
    processed without a panic whatever their spans are, and so is every
    list of packages whose files have their positions in the file set. *)
Theorem C8_invalid_span_is_skipped
    (ReadFile : nat → string → option string)
    (Abs : string → option string) (Join : string → string → string)
    (Separator : string) (Fprint : Ast.Expr → option string)
    (TypeVerb : Ast.Expr → string)
    (order : gmap string string → transform.MapOrder) :
  (∀ content lo hi,
     (is_Some (GoStrings.slice content lo hi) ↔
      ¬ parser.invalidOffsets lo hi content) ∧
     (¬ parser.invalidOffsets lo hi content ↔
      0 <= lo ∧ lo <= hi ∧ hi <= GoStrings.len content)) ∧
  (∀ pkg info fset path packageName isVendored content decl rest pos w,
     Ast.TypesInfo pkg = Some info → Ast.Fset pkg = Some fset →
     observe.invalidDecl fset content decl →
     ∃ w',
       (∀ chunks,
          parser.processOneDeclaration ReadFile Fprint TypeVerb order pkg path
            packageName isVendored content chunks decl w = Some (chunks, w')) ∧
       runtime.logged w'
       = runtime.logged w ++
         [runtime.LogInvalidDeclOffsets path
            (Ast.Line (Ast.PositionOf fset (Ast.Decl_Pos decl)))
            (Ast.Offset (Ast.PositionOf fset (Ast.Decl_Pos decl)))
            (Ast.Offset (Ast.PositionOf fset (Ast.Decl_End decl)))
            (GoStrings.len content)] ∧
       runtime.reads w' = runtime.reads w ∧
       observe.frame w w' ∧
       parser.processFileDeclarations ReadFile Fprint TypeVerb order
         (Ast.mkFile pos (decl :: rest)) pkg path packageName isVendored
         content w
       = parser.processFileDeclarations ReadFile Fprint TypeVerb order
           (Ast.mkFile pos rest) pkg path packageName isVendored content w') ∧
  (∀ spec pkg md path sp ep name content w,
     ReadFile (List.length (runtime.reads w)) path = Some content →
     parser.invalidOffsets (Ast.Offset sp) (Ast.Offset ep) content →
     parser.specChunk ReadFile order spec pkg md path sp ep name w
     = Some (None,
             runtime.mkWorld (runtime.heap w)
               (runtime.logged w ++
                [runtime.LogInvalidSpecOffsets path (Ast.Line sp)
                   (Ast.Offset sp) (Ast.Offset ep) (GoStrings.len content)])
               (runtime.reads w ++ [path]))) ∧
  (∀ file pkg info fset path packageName isVendored content w,
     Ast.TypesInfo pkg = Some info → Ast.Fset pkg = Some fset →
     is_Some (parser.processFileDeclarations ReadFile Fprint TypeVerb order
                file pkg path packageName isVendored content w)) ∧
  (∀ allPkgs projectPath w,
     (∀ pkg, pkg ∈ allPkgs → observe.filesNamed pkg) →
     is_Some (parser.ParsePackages ReadFile Abs Join Separator Fprint TypeVerb
                order allPkgs projectPath w)).
Proof.
  split; [|split; [|split; [|split]]].
  - intros content lo hi. split; [|apply valid_offsets_slice].
    destruct (decide (parser.invalidOffsets lo hi content)) as [Hinv|Hval].
    + rewrite (slice_invalid _ _ _ Hinv). split; [by intros [? ?]|done].
    + rewrite (slice_valid _ _ _ Hval). split; [done|by eexists].
  - intros pkg info fset path packageName isVendored content decl rest pos
      [h l rs] Hinfo Hfset Hinv.
    assert (∀ chunks,
              parser.processOneDeclaration ReadFile Fprint TypeVerb order pkg
                path packageName isVendored content chunks decl
                (runtime.mkWorld h l rs)
              = Some (chunks,
                      runtime.mkWorld
                        (<[fresh (dom h) :=
                             observe.fileMetadata path packageName isVendored]> h)
                        (l ++ [runtime.LogInvalidDeclOffsets path
                                 (Ast.Line (Ast.PositionOf fset (Ast.Decl_Pos decl)))
                                 (Ast.Offset (Ast.PositionOf fset (Ast.Decl_Pos decl)))
                                 (Ast.Offset (Ast.PositionOf fset (Ast.Decl_End decl)))
                                 (GoStrings.len content)])
                        rs)) as Hskip.
    { intros chunks.
      destruct (processOneDeclaration_post ReadFile Fprint TypeVerb order pkg
                  info fset path packageName isVendored content chunks decl
                  h l rs Hinfo Hfset)
        as (chunks' & [h' l' rs'] & Hrun & new & ev & -> & _ & Hl & Hr & Hnew).
      rewrite decide_True in Hr; [|done].
      cbv zeta in Hnew. rewrite decide_True in Hnew; [|done].
      simpl in Hnew, Hl, Hr. destruct Hnew as (-> & -> & ->).
      rewrite Hrun, Hl, Hr, !app_nil_r. done. }
    eexists. split; [exact Hskip|]. simpl.
    split; [done|]. split; [done|]. split; [apply frame_fresh|].
    unfold parser.processFileDeclarations. simpl.
    unfold mbind at 1, runtime.M_bind at 1. by rewrite Hskip.
  - intros spec pkg md path sp ep name content w Hread Hinv.
    destruct (specChunk_post ReadFile order spec pkg md path sp ep name w)
      as (co & w' & Hrun & ev & -> & Hco).
    rewrite Hrun. destruct co as [c|].
    + destruct Hco as (content' & code & Hread' & Hval & _).
      rewrite Hread in Hread'. injection Hread' as <-. done.
    + destruct Hco as [[Hnone _]|(content' & Hread' & _ & ->)]; [congruence|].
      rewrite Hread in Hread'. by injection Hread' as <-.
  - intros file pkg info fset path packageName isVendored content w
      Hinfo Hfset.
    destruct (processFileDeclarations_post ReadFile Fprint TypeVerb order file
                pkg info fset path packageName isVendored content w Hinfo Hfset)
      as (r & w' & Hrun & _).
    rewrite Hrun. by eexists.
  - intros allPkgs projectPath w Hnamed.
    destruct (Abs (Join projectPath "vendor")) as [absVendorPath|] eqn:HAbs.
    + destruct (ParsePackages_post ReadFile Abs Join Separator Fprint TypeVerb
                  order allPkgs projectPath absVendorPath w HAbs Hnamed)
        as (r & w' & Hrun & _).
      rewrite Hrun. by eexists.
    + unfold parser.ParsePackages. rewrite HAbs. by eexists.
Qed.

Lemma beyond_invalid :
  observe.invalidDecl examples.fset examples.a_go examples.beyond.
Proof. right; left. vm_compute. reflexivity. Qed.

(** A declaration said to end at offset 98 of a file of 33 bytes. *)
Lemma C8_invalid_span_is_skipped_witness :
  ∃ w',
    (∀ chunks,
       parser.processOneDeclaration (examples.still examples.a_go)
         examples.Fprint examples.TypeVerb examples.noOrder examples.pkg
         "/p/a.go" "p" false examples.a_go chunks examples.beyond
         runtime.emptyWorld = Some (chunks, w')) ∧
    runtime.reads w' = [].
Proof.
  destruct (C8_invalid_span_is_skipped (examples.still examples.a_go)
              examples.Abs examples.Join "/" examples.Fprint examples.TypeVerb
              examples.noOrder) as (_ & Hskip & _).
  destruct (Hskip examples.pkg examples.info examples.fset "/p/a.go" "p" false
              examples.a_go examples.beyond [] 1 runtime.emptyWorld
              eq_refl eq_refl beyond_invalid)
    as (w' & Hrun & _ & Hreads & _).
  exists w'. split; [exact Hrun|exact Hreads].
Defined.



(** What lies outside these failures: [go/parser]'s stub for a file that
    is not Go source has no position in the file set, [Name()] is called
    on a nil file, and the run of [ParsePackages] panics, also after a
    package that gave chunks. *)
Example stub_file_panics :
  (∃ chunks w',
     parser.ParsePackages (examples.still examples.a_go) examples.Abs
       examples.Join "/" examples.Fprint examples.TypeVerb examples.noOrder
       [examples.pkg] "/p" runtime.emptyWorld = Some ((chunks, None), w') ∧
     List.length chunks = 2%nat) ∧
  parser.ParsePackages (examples.still examples.a_go) examples.Abs
    examples.Join "/" examples.Fprint examples.TypeVerb examples.noOrder
    [examples.pkg; examples.stub_pkg] "/p" runtime.emptyWorld = None.
Proof.
  split; [eexists _, _; split|]; vm_compute; reflexivity.
Qed.

(** C4, as stated, fails on the package whose file holds [type T int]: the
    file is read twice, once by the loop over the files and once more for
    the binding, and the text of the chunk is cut from the second read.  On
    a disk where the file changes in between, the chunk reads [U int] while
    the span in the first read holds [T int]. *)
Lemma C4_binding_reads_the_file_again :
  ∃ c w',
    parser.ParsePackages examples.disk examples.Abs examples.Join "/"
      examples.Fprint examples.TypeVerb examples.noOrder [examples.pkg_T]
      "/p" runtime.emptyWorld = Some (([c], None), w') ∧
    runtime.reads w' = ["/p/a.go"; "/p/a.go"] ∧
    runtime.Document c = "U int" ∧
    GoStrings.slice examples.a_go 28 33 = Some "T int".
Proof.
  eexists _, _. split; [vm_compute; reflexivity|].
  repeat split; vm_compute; reflexivity.
Qed.

(** C4, amended.  Processing a file reads it once in the loop over the
    files and once more for every type or value binding of every top-level
    declaration whose span is valid in the first read.  A function or method
    chunk is sliced from the first read; the chunk of a binding is sliced
    from what a later read of the same file returned.  If every read of the
    file returns the same content, every chunk is sliced from it. *)
Theorem C4_reads_per_file
    (ReadFile : nat → string → option string) (Separator : string)
    (Fprint : Ast.Expr → option string) (TypeVerb : Ast.Expr → string)
    (order : gmap string string → transform.MapOrder)
    (pkg : Ast.Package) (info : Ast.Info) (fset : Ast.FileSet)
    (absVendorPath : string) (chunks : list runtime.ChromaDocument)
    (file : Ast.File) (path content : string) (w : runtime.World) :
  Ast.TypesInfo pkg = Some info → Ast.Fset pkg = Some fset →
  Ast.FileName fset (Ast.file_Pos file) = Some path →
  ReadFile (List.length (runtime.reads w)) path = Some content →
  ∃ new w',
    parser.processOneFile ReadFile Separator Fprint TypeVerb order pkg
      absVendorPath chunks file w = Some (chunks ++ new, w') ∧
    runtime.reads w'
    = runtime.reads w ++
      replicate (S (observe.fileReads fset content (Ast.Decls file))) path ∧
    (∀ c, c ∈ new →
       observe.slicedFrom ReadFile order pkg fset path content
         (S (List.length (runtime.reads w))) (Ast.Decls file) c) ∧
    ((∀ n, ReadFile n path = Some content) →
     ∀ c, c ∈ new →
       ∃ lo hi code node,
         GoStrings.slice content lo hi = Some code ∧
         runtime.Document c
         = transform.ApplyQualifierReplacements order code node
             (Ast.TypesInfo pkg)).
Proof.
  intros Hinfo Hfset Hname Hread.
  destruct (processOneFile_post ReadFile Separator Fprint TypeVerb order pkg
              info fset absVendorPath chunks file path w Hinfo Hfset Hname)
    as (chunks' & w' & Hrun & new & -> & _ & Hpost).
  rewrite Hread in Hpost. destruct Hpost as [Hreads Hsliced].
  exists new, w'. split; [exact Hrun|]. split; [exact Hreads|].
  split; [exact Hsliced|]. intros Hstill c Hin.
  destruct (Hsliced c Hin)
    as [(funcDecl & code & _ & Hcode & Hdoc)
       |(p & e & Tok & Specs & spec & n & later & code & _ & _ & _ & Hlater
           & Hcode & Hdoc)].
  - by eexists _, _, code, _.
  - rewrite Hstill in Hlater. injection Hlater as <-.
    by eexists _, _, code, _.
Qed.

(** The file [/p/a.go]: one read by the loop and one for [type T int]. *)
Lemma C4_reads_per_file_witness :
  ∃ new w',
    parser.processOneFile (examples.still examples.a_go) "/" examples.Fprint
      examples.TypeVerb examples.noOrder examples.pkg "/p/vendor" []
      examples.a_file runtime.emptyWorld = Some ([] ++ new, w') ∧
    runtime.reads w'
    = runtime.reads runtime.emptyWorld ++
      replicate (S (observe.fileReads examples.fset examples.a_go
                      (Ast.Decls examples.a_file))) "/p/a.go".
Proof.
  destruct (C4_reads_per_file (examples.still examples.a_go) "/"
              examples.Fprint examples.TypeVerb examples.noOrder examples.pkg
              examples.info examples.fset "/p/vendor" [] examples.a_file
              "/p/a.go" examples.a_go runtime.emptyWorld
              eq_refl eq_refl eq_refl eq_refl)
    as (new & w' & Hrun & Hreads & _).
  exists new, w'. split; [exact Hrun|exact Hreads].
Defined.

(** In that run the file is read twice. *)
Example a_file_reads :
  observe.fileReads examples.fset examples.a_go (Ast.Decls examples.a_file)
  = 1%nat.
Proof. vm_compute. reflexivity. Qed.
